(** * voice-wrapper.py: command catalog, pane mirror and input injector

    A shallow embedding of [scripts/voice-wrapper.py] and the properties of
    its three cores:

    - the command catalog ([_parse_skill_md], [_collect_skill_commands],
      [get_commands]),
    - the pane mirror ([stream_output.event_generator]),
    - the input injector ([send_text], [send_key]).

    Library calls whose results come from outside the program are inputs of
    the model: [glob.glob] and [open(...).read()] are a record of scan
    results, [subprocess.run] is an oracle that either completes or raises,
    [json.dumps] is a section variable. *)

From Stdlib Require Import String Ascii.
From stdpp Require Import gmap list sorting.

Local Open Scope N_scope.

(** ** Python text

    A Python [str] is a sequence of code points. *)

Abbreviation str := (list N).

(** An ASCII literal of the source, as code points. *)
Definition str_of (s : string) : str :=
  N_of_ascii <$> list_ascii_of_string s.

Definition NL : N := 10.
Definition QUOTE : N := 34.

(** [str.isspace] on one code point, which is also what [\s] matches in a
    [str] pattern: the Unicode white space of CPython. *)
Definition is_space (c : N) : bool :=
  ((9 <=? c) && (c <=? 13)) || ((28 <=? c) && (c <=? 32))
  || (c =? 133) || (c =? 160) || (c =? 5760)
  || ((8192 <=? c) && (c <=? 8202))
  || (c =? 8232) || (c =? 8233) || (c =? 8239) || (c =? 8287)
  || (c =? 12288).

Fixpoint lstrip (p : N → bool) (s : str) : str :=
  match s with
  | c :: s' => if p c then lstrip p s' else s
  | [] => []
  end.

Definition rstrip (p : N → bool) (s : str) : str :=
  rev (lstrip p (rev s)).

(** [s.strip()] and [s.strip(chars)] for a one-character [chars]. *)
Definition strip_by (p : N → bool) (s : str) : str := rstrip p (lstrip p s).
Definition strip (s : str) : str := strip_by is_space s.
Definition strip_quote (s : str) : str := strip_by (N.eqb QUOTE) s.

(** [<], [<=] on [str]: lexicographic on code points. *)
Fixpoint str_le (a b : str) : bool :=
  match a, b with
  | [], _ => true
  | _ :: _, [] => false
  | x :: a', y :: b' => (x <? y) || ((x =? y) && str_le a' b')
  end.

Definition str_lt (a b : str) : bool := negb (str_le b a).

(** ** The fragment of [re] the program uses

    A pattern is a sequence of atoms; every pattern of the program has one
    capturing group, which wraps one repetition of a character class. The
    matcher backtracks the way [re] does: a greedy repetition tries the
    longest run first, a lazy one the shortest. *)

Inductive cclass :=
| Any     (* [.] under re.DOTALL *)
| Dot     (* [.] otherwise: anything but a newline *)
| Space.  (* [\s] *)

Inductive quant := Greedy | Lazy.

Inductive atom :=
| Lit (s : str)
| Bos                    (* [^] without re.MULTILINE: start of the text *)
| Bol                    (* [^] under re.MULTILINE *)
| Eol                    (* [$] under re.MULTILINE *)
| Rep (q : quant) (least : nat) (c : cclass) (capture : bool).

Definition in_class (cl : cclass) (c : N) : bool :=
  match cl with
  | Any => true
  | Dot => negb (c =? NL)
  | Space => is_space c
  end.

(** [eat l prev s]: consume the literal [l] at the head of [s]; returns the
    last character consumed (or [prev]) and the rest. *)
Fixpoint eat (l : str) (prev : option N) (s : str) : option (option N * str) :=
  match l with
  | [] => Some (prev, s)
  | x :: l' =>
      match s with
      | c :: s' => if x =? c then eat l' (Some c) s' else None
      | [] => None
      end
  end.

Definition at_bol (prev : option N) : bool :=
  match prev with None => true | Some c => c =? NL end.

Definition at_eol (s : str) : bool :=
  match s with [] => true | c :: _ => c =? NL end.

(** [rep_class q least cl k n prev s acc]: [n] characters of the class have been
    consumed (in [acc], reversed); [k prev s run] continues after the
    repetition. *)
Fixpoint rep_class (q : quant) (least : nat) (cl : cclass)
    (k : option N → str → str → option str)
    (n : nat) (prev : option N) (s : str) (acc : str) : option str :=
  let stop := if (least <=? n)%nat then k prev s (rev acc) else None in
  let more :=
    match s with
    | c :: s' =>
        if in_class cl c
        then rep_class q least cl k (S n) (Some c) s' (c :: acc)
        else None
    | [] => None
    end in
  match q with
  | Greedy => match more with Some r => Some r | None => stop end
  | Lazy => match stop with Some r => Some r | None => more end
  end.

(** [exec r prev s g]: match [r] at the head of [s], [prev] being the
    character before it; on success the text of group 1. *)
Fixpoint exec (r : list atom) (prev : option N) (s : str) (g : str)
    : option str :=
  match r with
  | [] => Some g
  | Lit l :: r' =>
      match eat l prev s with
      | Some (prev', s') => exec r' prev' s' g
      | None => None
      end
  | Bos :: r' => if prev is None then exec r' prev s g else None
  | Bol :: r' => if at_bol prev then exec r' prev s g else None
  | Eol :: r' => if at_eol s then exec r' prev s g else None
  | Rep q least cl cap :: r' =>
      rep_class q least cl
        (fun prev' s' run => exec r' prev' s' (if cap then run else g))
        0%nat prev s []
  end.

(** [re.match(r, s)] and [re.search(r, s)], giving [m.group(1)]. *)
Definition re_match (r : list atom) (s : str) : option str :=
  exec r None s [].

Fixpoint search_from (r : list atom) (prev : option N) (s : str)
    : option str :=
  match exec r prev s [] with
  | Some g => Some g
  | None =>
      match s with
      | c :: s' => search_from r (Some c) s'
      | [] => None
      end
  end.

Definition re_search (r : list atom) (s : str) : option str :=
  search_from r None s.

(** r"^---\n(.*?)\n---" with re.DOTALL *)
Definition FRONTMATTER_RE : list atom :=
  [ Bos; Lit (str_of "---" ++ [NL]); Rep Lazy 0 Any true;
    Lit (NL :: str_of "---") ].

(** r"^name:\s*(.+)$" and r"^description:\s*(.+)$" with re.MULTILINE *)
Definition field_re (key : string) : list atom :=
  [ Bol; Lit (str_of key ++ str_of ":"); Rep Greedy 0 Space false;
    Rep Greedy 1 Dot true; Eol ].

Definition NAME_RE : list atom := field_re "name".
Definition DESC_RE : list atom := field_re "description".

(** ** The catalog *)

(** A command dict: [{"command": ..., "description": ..., "takes_args": ...}] *)
Record Command := mkCommand {
  command : str;
  description : str;
  takes_args : bool
}.

Definition builtin (c d : string) (a : bool) : Command :=
  mkCommand (str_of c) (str_of d) a.

Definition BUILTIN_COMMANDS : list Command := [
  builtin "/bug"               "Report a Claude Code bug"          false;
  builtin "/clear"             "Clear conversation history"        false;
  builtin "/compact"           "Compact conversation with summary" true;
  builtin "/config"            "Manage configuration"              true;
  builtin "/cost"              "Show token usage and cost"         false;
  builtin "/doctor"            "Check Claude Code installation"    false;
  builtin "/exit"              "Exit Claude Code"                  false;
  builtin "/help"              "Show help"                         true;
  builtin "/ide"               "Connect to IDE"                    false;
  builtin "/init"              "Initialize project with CLAUDE.md" false;
  builtin "/login"             "Sign in to Claude"                 false;
  builtin "/logout"            "Sign out from Claude"              false;
  builtin "/mcp"               "Manage MCP servers"                true;
  builtin "/memory"            "Edit memory (CLAUDE.md)"           false;
  builtin "/migrate-installer" "Migrate to latest installer"       false;
  builtin "/model"             "Set or show current AI model"      true;
  builtin "/pr-comments"       "View pull request comments"        false;
  builtin "/reset"             "Reset to empty project context"    false;
  builtin "/resume"            "Resume a previous conversation"    true;
  builtin "/review"            "Request code review"               false;
  builtin "/status"            "Show account and system status"    false;
  builtin "/terminal"          "Run a terminal command"            true;
  builtin "/vim"               "Enter vim mode"                    false
].

(** What the program reads from the file system during one catalog
    request: the two [glob.glob] results, in the order [glob] lists them,
    and the text [open(path, encoding="utf-8").read()] returns, [None] when
    opening, reading or decoding raises. *)
Record scan := mkScan {
  skills_glob : list str;    (* {HOME}/.claude/skills/*/SKILL.md *)
  plugins_glob : list str;   (* {HOME}/.claude/plugins/cache/**/SKILL.md *)
  read_text : str → option str
}.

(** [_parse_skill_md]: the pair [(name, desc)], [name] being [None] on
    failure. *)
Definition _parse_skill_md (fs : scan) (path : str) : option str * str :=
  match read_text fs path with
  | None => (None, [])                           (* except Exception *)
  | Some content =>
      match re_match FRONTMATTER_RE content with
      | None => (None, [])
      | Some fm =>
          let name_m := re_search NAME_RE fm in
          let desc_m := re_search DESC_RE fm in
          let name := (λ g, strip_quote (strip g)) <$> name_m in
          let desc := default [] ((λ g, strip_quote (strip g)) <$> desc_m) in
          (name, desc)
      end
  end.

(** Truth value of [name] in [if name] / [if not name]. *)
Definition truthy (name : option str) : option str :=
  match name with
  | Some (c :: n) => Some (c :: n)
  | _ => None
  end.

(** Elements of the [seen] set: a [str] (user skills) or a pair of [str]
    (plugin skills); a [str] never equals a tuple. *)
Inductive key :=
| KName (name : str)
| KPlugin (plugin_name name : str).

Global Instance key_eq_dec : EqDecision key.
Proof. solve_decision. Defined.

Global Instance key_countable : Countable key :=
  inj_countable'
    (λ k, match k with KName n => inl n | KPlugin p n => inr (p, n) end)
    (λ s, match s with inl n => KName n | inr (p, n) => KPlugin p n end)
    (λ k, match k with KName _ => eq_refl | KPlugin _ _ => eq_refl end).

(** [path.split(os.sep)], [os.sep] being "/". *)
Definition SEP : N := 47.

Fixpoint split (sep : N) (s : str) : list str :=
  match s with
  | [] => [[]]
  | c :: s' =>
      if c =? sep then [] :: split sep s'
      else match split sep s' with
           | p :: ps => (c :: p) :: ps
           | [] => [[c]]
           end
  end.

(** [parts.index(x)]: the first position of [x], [None] for ValueError. *)
Fixpoint index (x : str) (parts : list str) : option nat :=
  match parts with
  | [] => None
  | p :: parts' => if decide (p = x) then Some 0%nat else S <$> index x parts'
  end.

(** [sorted(l, key=f)]: the stable sort, by insertion. *)
Fixpoint insert_sorted {A} (f : A → str) (x : A) (l : list A) : list A :=
  match l with
  | [] => [x]
  | y :: l' => if str_le (f x) (f y) then x :: l else y :: insert_sorted f x l'
  end.

Fixpoint sorted {A} (f : A → str) (l : list A) : list A :=
  match l with
  | [] => []
  | x :: l' => insert_sorted f x (sorted f l')
  end.

Definition skill_command (name desc : str) : Command :=
  mkCommand (str_of "/" ++ name) desc true.

Definition plugin_command (plugin_name name desc : str) : Command :=
  let cmd := if decide (plugin_name ≠ name)
             then str_of "/" ++ plugin_name ++ str_of ":" ++ name
             else str_of "/" ++ name in
  mkCommand cmd desc true.

(** The plugin identity of a path: [parts[parts.index("cache") + 2]],
    [None] when [index] or the subscript raises. *)
Definition plugin_name_of (path : str) : option str :=
  let parts := split SEP path in
  match index (str_of "cache") parts with
  | Some cache_idx => parts !! (cache_idx + 2)%nat
  | None => None
  end.

(** Body of the first loop, on the state [(commands, seen)]. *)
Definition skill_step (fs : scan) (st : list Command * gset key) (path : str)
    : list Command * gset key :=
  let '(commands, seen) := st in
  let '(name, desc) := _parse_skill_md fs path in
  match truthy name with
  | Some name =>
      if decide (KName name ∉ seen)
      then (commands ++ [skill_command name desc], {[KName name]} ∪ seen)
      else st
  | None => st
  end.

(** Body of the second loop. *)
Definition plugin_step (fs : scan) (st : list Command * gset key) (path : str)
    : list Command * gset key :=
  let '(commands, seen) := st in
  match plugin_name_of path with
  | None => st                                   (* continue *)
  | Some plugin_name =>
      let '(name, desc) := _parse_skill_md fs path in
      match truthy name with
      | None => st
      | Some name =>
          let k := KPlugin plugin_name name in
          if decide (k ∈ seen) then st
          else (commands ++ [plugin_command plugin_name name desc],
                {[k]} ∪ seen)
      end
  end.

Definition discover (fs : scan) : list Command * gset key :=
  foldl (plugin_step fs) (foldl (skill_step fs) ([], ∅) (skills_glob fs))
    (plugins_glob fs).

Definition _collect_skill_commands (fs : scan) : list Command :=
  sorted command (discover fs).1.

(** GET /commands *)
Definition get_commands (fs : scan) : list Command :=
  BUILTIN_COMMANDS ++ _collect_skill_commands fs.

(** ** Identity keys

    The dicts of the catalog do not record where an entry comes from. The
    keyed catalog pairs every entry with its identity key: the bare command
    name for a built-in and for a user-level skill, the pair (plugin
    identity, skill name) for a plugin skill. It reruns the two loops with
    the key next to each appended dict; [keyed_erase] shows that forgetting
    the keys gives back [get_commands]. *)

Definition skill_step_keyed (fs : scan) (st : list (key * Command) * gset key)
    (path : str) : list (key * Command) * gset key :=
  let '(commands, seen) := st in
  let '(name, desc) := _parse_skill_md fs path in
  match truthy name with
  | Some name =>
      if decide (KName name ∉ seen)
      then (commands ++ [(KName name, skill_command name desc)],
            {[KName name]} ∪ seen)
      else st
  | None => st
  end.

Definition plugin_step_keyed (fs : scan) (st : list (key * Command) * gset key)
    (path : str) : list (key * Command) * gset key :=
  let '(commands, seen) := st in
  match plugin_name_of path with
  | None => st
  | Some plugin_name =>
      let '(name, desc) := _parse_skill_md fs path in
      match truthy name with
      | None => st
      | Some name =>
          let k := KPlugin plugin_name name in
          if decide (k ∈ seen) then st
          else (commands ++ [(k, plugin_command plugin_name name desc)],
                {[k]} ∪ seen)
      end
  end.

Definition discover_keyed (fs : scan) : list (key * Command) * gset key :=
  foldl (plugin_step_keyed fs)
    (foldl (skill_step_keyed fs) ([], ∅) (skills_glob fs)) (plugins_glob fs).

Definition collect_keyed (fs : scan) : list (key * Command) :=
  sorted (command ∘ snd) (discover_keyed fs).1.

(** The bare name of a built-in: its command without the leading "/". *)
Definition builtin_key (c : Command) : key := KName (drop 1 (command c)).

Definition builtin_keyed : list (key * Command) :=
  (λ c, (builtin_key c, c)) <$> BUILTIN_COMMANDS.

Definition catalog_keyed (fs : scan) : list (key * Command) :=
  builtin_keyed ++ collect_keyed fs.

(** Forgetting the keys of a loop state. *)
Definition erase (st : list (key * Command) * gset key)
    : list Command * gset key :=
  (snd <$> st.1, st.2).

(** Loop invariant: the keys of the entries appended so far are distinct
    and all registered in [seen]. *)
Definition keys_ok (st : list (key * Command) * gset key) : Prop :=
  NoDup (fst <$> st.1) ∧ ∀ k, k ∈ fst <$> st.1 → k ∈ st.2.

(** Order of two catalog entries by command string. *)
Definition cmd_le (x y : Command) : Prop := str_le (command x) (command y) = true.
Definition cmd_lt (x y : Command) : Prop := str_lt (command x) (command y) = true.

Global Instance cmd_le_dec x y : Decision (cmd_le x y).
Proof. unfold cmd_le. apply _. Defined.

Global Instance cmd_lt_dec x y : Decision (cmd_lt x y).
Proof. unfold cmd_lt. apply _. Defined.

(** The last built-in. *)
Definition VIM : str := str_of "/vim".

(** ["/".join(segs)] *)
Fixpoint join (sep : N) (segs : list str) : str :=
  match segs with
  | [] => []
  | [p] => p
  | p :: segs' => p ++ sep :: join sep segs'
  end.

(** ** Sample descriptors and scans *)

(** A descriptor file with a [name] and a [description] in its header. *)
Definition skill_md (name desc : string) : str :=
  str_of "---" ++ [NL] ++ str_of "name: " ++ str_of name ++ [NL]
  ++ str_of "description: " ++ str_of desc ++ [NL] ++ str_of "---".

Definition one_file (path content : str) : str → option str :=
  λ p, if decide (p = path) then Some content else None.

(** A user-level skill named like the built-in [/help]. *)
Definition fs_help : scan :=
  let path := str_of "/home/u/.claude/skills/help/SKILL.md" in
  mkScan [path] [] (one_file path (skill_md "help" "My help")).

(** One user-level skill, [deploy]. *)
Definition fs_deploy : scan :=
  let path := str_of "/home/u/.claude/skills/deploy/SKILL.md" in
  mkScan [path] [] (one_file path (skill_md "deploy" "Deploy app")).

(** A user-level skill [toolkit] next to the plugin [toolkit] whose skill
    is [toolkit] too. *)
Definition fs_toolkit : scan :=
  mkScan [str_of "/home/u/.claude/skills/toolkit/SKILL.md"]
    [str_of "/home/u/.claude/plugins/cache/market1/toolkit/1.0.0/SKILL.md"]
    (λ _, Some (skill_md "toolkit" "Tools")).

(** The plugin [toolkit] of the marketplace [market1], with one skill
    [build]. *)
Definition build_path : str :=
  str_of "/home/u/.claude/plugins/cache/market1/toolkit/1.0.0/SKILL.md".

Definition fs_build : scan :=
  mkScan [] [build_path]
    (one_file build_path (skill_md "build" "Build the project")).



(** *** The header in the words of the specification

    "A header block bounded by a line containing only a fixed delimiter,
    immediately followed by key lines of the form key: value (at minimum
    name, optionally description), terminated by a second identical
    delimiter line." *)

(** The text before the first [c] and the text after it. *)
Fixpoint cut_at (c : N) (s : str) : option (str * str) :=
  match s with
  | [] => None
  | x :: s' =>
      if x =? c then Some ([], s')
      else (λ ab, (x :: ab.1, ab.2)) <$> cut_at c s'
  end.

(** A line of the form key: value, both present. *)
Definition key_value (line : str) : option (str * str) :=
  match cut_at 58 line with
  | Some (key, value) =>
      if decide (key ≠ [] ∧ strip value ≠ []) then Some (key, strip value)
      else None
  | None => None
  end.

(** The lines before the first line that is the delimiter and nothing
    else. *)
Fixpoint until_delimiter (lines : list str) : option (list str) :=
  match lines with
  | [] => None
  | l :: lines' =>
      if decide (l = str_of "---") then Some []
      else (λ ls, l :: ls) <$> until_delimiter lines'
  end.

(** The keys and values of a header of the described shape. *)
Definition spec_header (content : str) : option (list (str * str)) :=
  match split NL content with
  | first :: lines =>
      if decide (first = str_of "---")
      then until_delimiter lines ≫= mapM key_value
      else None
  | [] => None
  end.

Fixpoint value_of (key : str) (kvs : list (str * str)) : option str :=
  match kvs with
  | [] => None
  | (k, v) :: kvs' => if decide (k = key) then Some v else value_of key kvs'
  end.

(** The name a file of the described shape declares; [None] for a file
    that is not of the shape or has no name. *)
Definition spec_name (content : str) : option str :=
  spec_header content ≫= value_of (str_of "name").






(** ** Subprocesses

    [subprocess.run] either returns a [CompletedProcess] or raises
    ([TimeoutExpired] after the timeout, [OSError] when the tool cannot be
    started, ...). The exit status is not an exception: neither call site
    passes [check=True]. The world records every argument vector handed to
    [subprocess.run], in order; the outcome of the i-th call is the
    oracle's. *)

Inductive exn := TimeoutExpired | OSError | OtherException.

Record CompletedProcess := mkCompleted {
  returncode : Z;
  stdout : str
}.

Inductive outcome :=
| Completed (p : CompletedProcess)
| Raised (e : exn).

Record world := mkWorld {
  oracle : nat → list str → outcome;
  calls : list (list str)
}.

(** Computations that call subprocesses and may raise. *)
Definition M (A : Type) : Type := world → (exn + A) * world.

Global Instance M_ret : MRet M := λ A x w, (inr x, w).

Global Instance M_bind : MBind M := λ A B f m w,
  match m w with
  | (inr x, w') => f x w'
  | (inl e, w') => (inl e, w')
  end.

(** [try: body / except Exception: handler] *)
Definition try_except {A} (body : M A) (handler : exn → M A) : M A := λ w,
  match body w with
  | (inr x, w') => (inr x, w')
  | (inl e, w') => handler e w'
  end.

Definition subprocess_run (argv : list str) : M CompletedProcess := λ w,
  let w' := mkWorld (oracle w) (calls w ++ [argv]) in
  match oracle w (length (calls w)) argv with
  | Completed p => (inr p, w')
  | Raised e => (inl e, w')
  end.

(** What the web framework makes of a handler: the returned value as the
    body of a 200 response, a raised exception as a 500 response. *)
Inductive response (A : Type) :=
| Ok200 (body : A)
| Error500.
Arguments Ok200 {A} body.
Arguments Error500 {A}.

Definition serve {A} (handler : M A) (w : world) : response A * world :=
  match handler w with
  | (inr body, w') => (Ok200 body, w')
  | (inl _, w') => (Error500, w')
  end.

Definition TMUX_SESSION : str := str_of "claude".

Section tmux.
(** [TMUX = shutil.which("tmux") or "/opt/homebrew/bin/tmux"] is fixed
    when the module is loaded; [json.dumps] is the library's encoder. *)
Context (TMUX : str) (json_dumps : str → str).

(** *** Pane mirror *)

Definition capture_argv : list str :=
  [ TMUX; str_of "capture-pane"; str_of "-t"; TMUX_SESSION; str_of "-p";
    str_of "-S"; str_of "-200" ].

(** f"data: {json.dumps(current)}\n\n" *)
Definition sse_event (current : str) : str :=
  str_of "data: " ++ json_dumps current ++ [NL; NL].

(** One turn of the [while True] loop of [event_generator], up to the
    sleep: the events it yields and the value of [prev] after it. The
    baseline [prev] is [None] until the first event. *)
Definition cycle (prev : option str) : M (list str * option str) :=
  try_except
    (result ← subprocess_run capture_argv;
     let current := stdout result in
     if decide (Some current ≠ prev)
     then mret ([sse_event current], Some current)
     else mret ([], prev))
    (λ _, mret ([], prev)).

(** The first [n] turns of the loop: everything yielded, in order. *)
Fixpoint event_generator_from (n : nat) (prev : option str) : M (list str) :=
  match n with
  | O => mret []
  | S n' =>
      '(events, prev') ← cycle prev;
      rest ← event_generator_from n' prev';
      mret (events ++ rest)
  end.

Definition event_generator (n : nat) : M (list str) :=
  event_generator_from n None.

(** *** Input injector *)

Definition literal_argv (text : str) : list str :=
  [ TMUX; str_of "send-keys"; str_of "-t"; TMUX_SESSION; str_of "-l"; text ].

Definition key_argv (key : str) : list str :=
  [ TMUX; str_of "send-keys"; str_of "-t"; TMUX_SESSION; key ].

(** [{"status": "sent"}] *)
Definition status_sent : list (str * str) :=
  [ (str_of "status", str_of "sent") ].

Definition send_text (text : str) : M (list (str * str)) :=
  _ ← subprocess_run (literal_argv text);
  _ ← subprocess_run (key_argv (str_of "Enter"));
  mret status_sent.

Definition send_key (key : str) : M (list (str * str)) :=
  _ ← subprocess_run (key_argv key);
  mret status_sent.

(** POST /send and POST /key *)
Definition post_send (text : str) : world → response (list (str * str)) * world :=
  serve (send_text text).

Definition post_key (key : str) : world → response (list (str * str)) * world :=
  serve (send_key key).
End tmux.

(** The i-th call of the world completes, or raises. *)
Definition completes (w : world) (i : nat) (argv : list str) : Prop :=
  ∃ p, oracle w i argv = Completed p.

Definition raises (w : world) (i : nat) (argv : list str) : Prop :=
  ∃ e, oracle w i argv = Raised e.

(** The world after further calls. *)
Definition after (w : world) (argvs : list (list str)) : world :=
  mkWorld (oracle w) (calls w ++ argvs).

(** *** Sample worlds *)

(** Every call completes with exit status 0 and no output. *)
Definition w_ok : world :=
  mkWorld (λ _ _, Completed (mkCompleted 0 [])) [].

(** Every call times out. *)
Definition w_timeout : world :=
  mkWorld (λ _ _, Raised TimeoutExpired) [].

(** The first call completes, the others time out. *)
Definition w_enter_timeout : world :=
  mkWorld (λ i _, match i with
                  | O => Completed (mkCompleted 0 [])
                  | _ => Raised TimeoutExpired
                  end) [].

Definition pane_AB : str := str_of "A" ++ [NL] ++ str_of "B".
Definition pane_ABC : str := pane_AB ++ [NL] ++ str_of "C".

(** A capture that times out, two captures of the same pane, a capture of
    the pane with one more line, then an empty pane for good. *)
Definition w_panes : world :=
  mkWorld (λ i _, match i with
                  | 0 => Raised TimeoutExpired
                  | 1 | 2 => Completed (mkCompleted 0 pane_AB)
                  | 3 => Completed (mkCompleted 0 pane_ABC)
                  | _ => Completed (mkCompleted 1 [])
                  end%nat) [].

(** [json.dumps(s)] for a [str], with the default options
    ([ensure_ascii]): the quote and the backslash are escaped, the control
    characters with a short escape get it, every other character outside
    the printable ASCII range becomes [\uXXXX] (a surrogate pair above
    U+FFFF), and the result is put between quotes. *)
Definition hex_digit (d : N) : N := if d <? 10 then 48 + d else 87 + d.

Definition u_escape (n : N) : str :=
  [ 92; 117; hex_digit (n / 4096 mod 16); hex_digit (n / 256 mod 16);
    hex_digit (n / 16 mod 16); hex_digit (n mod 16) ].

Definition json_escape (c : N) : str :=
  if c =? 34 then [92; 34]
  else if c =? 92 then [92; 92]
  else if c =? 10 then [92; 110]
  else if c =? 13 then [92; 114]
  else if c =? 9 then [92; 116]
  else if c =? 8 then [92; 98]
  else if c =? 12 then [92; 102]
  else if (32 <=? c) && (c <=? 126) then [c]
  else if c <? 65536 then u_escape c
  else u_escape (55296 + ((c - 65536) / 1024) mod 1024)
       ++ u_escape (56320 + (c - 65536) mod 1024).

Definition json_dumps_plain (s : str) : str :=
  [QUOTE] ++ concat (json_escape <$> s) ++ [QUOTE].

Definition TMUX_default : str := str_of "/opt/homebrew/bin/tmux".

(** ** Summaries of the loops

    What the two discovery loops and the mirror loop compute, as functions
    on lists; the theorems further down relate them to the loops. *)

(** Two command dicts are compared field by field. *)
Global Instance Command_eq_dec : EqDecision Command.
Proof. solve_decision. Defined.

(** The entry a user-level descriptor stands for, with its key; [None]
    when the first loop skips the file. *)
Definition skill_entry (fs : scan) (path : str) : option (key * Command) :=
  let '(name, desc) := _parse_skill_md fs path in
  (λ name, (KName name, skill_command name desc)) <$> truthy name.

(** The same for a plugin descriptor and the second loop. *)
Definition plugin_entry (fs : scan) (path : str) : option (key * Command) :=
  match plugin_name_of path with
  | None => None
  | Some plugin_name =>
      let '(name, desc) := _parse_skill_md fs path in
      (λ name, (KPlugin plugin_name name,
                plugin_command plugin_name name desc)) <$> truthy name
  end.

(** All entries the descriptor files stand for, in scan order: the user
    tree first, the plugin tree second. *)
Definition scan_entries (fs : scan) : list (key * Command) :=
  omap (skill_entry fs) (skills_glob fs)
  ++ omap (plugin_entry fs) (plugins_glob fs).

(** One step of either loop, on a keyed state. *)
Definition add_entry (st : list (key * Command) * gset key)
    (kc : key * Command) : list (key * Command) * gset key :=
  if decide (kc.1 ∈ st.2) then st else (st.1 ++ [kc], {[kc.1]} ∪ st.2).

(** Keep, for every key not in [seen], its first entry. *)
Fixpoint first_by_key (seen : gset key) (l : list (key * Command))
    : list (key * Command) :=
  match l with
  | [] => []
  | kc :: l' =>
      if decide (kc.1 ∈ seen) then first_by_key seen l'
      else kc :: first_by_key ({[kc.1]} ∪ seen) l'
  end.

(** The command string that goes with a key. *)
Definition command_of_key (k : key) : str :=
  match k with
  | KName name => str_of "/" ++ name
  | KPlugin plugin_name name =>
      if decide (plugin_name ≠ name)
      then str_of "/" ++ plugin_name ++ str_of ":" ++ name
      else str_of "/" ++ name
  end.

(** A descriptor text in the plain form: a name line and a description
    line between the delimiters. *)
Definition descriptor (name desc : str) : str :=
  str_of "---" ++ [NL] ++ str_of "name: " ++ name ++ [NL]
  ++ str_of "description: " ++ desc ++ [NL] ++ str_of "---".

(** A value that the two [strip] calls leave alone and that fits on
    one line: not empty, no newline, no white space or quote at either
    end. *)
Definition plain_end (c : N) : Prop := is_space c = false ∧ c ≠ QUOTE.

Definition plain (s : str) : Prop :=
  (NL ∉ s) ∧ (∃ c, head s = Some c ∧ plain_end c)
  ∧ (∃ c, last s = Some c ∧ plain_end c).

(** The outcomes of the next [n] captures of a world. *)
Definition captures (TMUX : str) (w : world) (n : nat) : list outcome :=
  (λ i, oracle w (length (calls w) + i)%nat (capture_argv TMUX)) <$> seq 0 n.

(** The texts of the completed captures among some outcomes. *)
Definition stdouts (os : list outcome) : list str :=
  omap (λ o, match o with Completed p => Some (stdout p) | Raised _ => None end)
    os.

(** The texts a subscriber with baseline [prev] is sent for some capture
    outcomes: every completed capture that differs from the one before. *)
Fixpoint changes (prev : option str) (os : list outcome) : list str :=
  match os with
  | [] => []
  | Raised _ :: os' => changes prev os'
  | Completed p :: os' =>
      if decide (Some (stdout p) ≠ prev)
      then stdout p :: changes (Some (stdout p)) os'
      else changes prev os'
  end.

(** The same on the texts alone: drop every text equal to the one before
    it. *)
Fixpoint squash (prev : option str) (texts : list str) : list str :=
  match texts with
  | [] => []
  | t :: texts' =>
      if decide (Some t ≠ prev) then t :: squash (Some t) texts'
      else squash prev texts'
  end.

(** No two neighbours of a list are equal. *)
Fixpoint no_repeat (prev : option str) (l : list str) : Prop :=
  match l with
  | [] => True
  | x :: l' => Some x ≠ prev ∧ no_repeat (Some x) l'
  end.

(** ** The address of the server *)

(** [get_tailscale_ip], [TAILSCALE] being
    [shutil.which("tailscale") or "/usr/local/bin/tailscale"]. *)
Definition get_tailscale_ip (TAILSCALE : str) : M str :=
  result ← subprocess_run [TAILSCALE; str_of "ip"; str_of "-4"];
  mret (strip (stdout result)).

(** The call prints the address and a line end. *)
Definition w_tailscale : world :=
  mkWorld (λ _ _, Completed (mkCompleted 0 (str_of "100.64.0.7" ++ [NL]))) [].

(** Two descriptors of the user skill [deploy], and the plugin [toolkit]
    in two versions. *)
Definition fs_twice : scan :=
  let a := str_of "/home/u/.claude/skills/a/SKILL.md" in
  let b := str_of "/home/u/.claude/skills/b/SKILL.md" in
  let v1 := str_of "/home/u/.claude/plugins/cache/market1/toolkit/1.0.0/SKILL.md" in
  let v2 := str_of "/home/u/.claude/plugins/cache/market1/toolkit/2.0.0/SKILL.md" in
  mkScan [a; b] [v1; v2]
    (λ p, if decide (p = a) then Some (skill_md "deploy" "First")
          else if decide (p = b) then Some (skill_md "deploy" "Second")
          else if decide (p = v1) then Some (skill_md "build" "Old build")
          else if decide (p = v2) then Some (skill_md "build" "New build")
          else None).

(** The same files, listed in the opposite order. *)
Definition fs_twice_rev : scan :=
  mkScan (reverse (skills_glob fs_twice)) (reverse (plugins_glob fs_twice))
    (read_text fs_twice).

(** ** Order on text *)

Lemma str_le_refl a : str_le a a = true.
Proof.
  induction a as [|x a IH]; simpl; [done|].
  rewrite N.eqb_refl, IH. by rewrite orb_true_r.
Qed.

Lemma str_le_total a b : str_le a b = false → str_le b a = true.
Proof.
  revert b; induction a as [|x a IH]; intros [|y b]; simpl; try done.
  intros H. apply orb_false_iff in H as [Hlt H].
  apply N.ltb_ge in Hlt.
  destruct (N.eqb_spec x y) as [->|Hne]; simpl in H.
  - rewrite N.eqb_refl, (IH _ H). by rewrite orb_true_r.
  - assert ((y <? x) = true) as -> by (apply N.ltb_lt; lia). done.
Qed.

Lemma str_le_trans a b c :
  str_le a b = true → str_le b c = true → str_le a c = true.
Proof.
  revert b c; induction a as [|x a IH]; intros [|y b] [|z c]; simpl; try done.
  intros H1 H2.
  apply orb_true_iff in H1 as [H1|H1], H2 as [H2|H2].
  - apply N.ltb_lt in H1, H2.
    assert ((x <? z) = true) as -> by (apply N.ltb_lt; lia). done.
  - apply andb_true_iff in H2 as [->%N.eqb_eq _]. by rewrite H1.
  - apply andb_true_iff in H1 as [->%N.eqb_eq _]. by rewrite H2.
  - apply andb_true_iff in H1 as [->%N.eqb_eq H1].
    apply andb_true_iff in H2 as [->%N.eqb_eq H2].
    rewrite N.eqb_refl, (IH _ _ H1 H2). by rewrite orb_true_r.
Qed.

Lemma str_le_antisym a b :
  str_le a b = true → str_le b a = true → a = b.
Proof.
  revert b; induction a as [|x a IH]; intros [|y b]; simpl; try done.
  intros H1 H2.
  apply orb_true_iff in H1 as [H1|H1], H2 as [H2|H2];
    rewrite ?andb_true_iff, ?N.ltb_lt, ?N.eqb_eq in *; try lia.
  destruct H1 as [-> H1], H2 as [_ H2]. f_equal. by apply IH.
Qed.

(** ** The stable sort *)

Section sorted.
Context {A : Type} (f : A → str).

Let le (x y : A) : Prop := str_le (f x) (f y) = true.

Lemma insert_sorted_perm x l : insert_sorted f x l ≡ₚ x :: l.
Proof.
  induction l as [|y l IH]; simpl; [done|].
  destruct (str_le (f x) (f y)); [done|].
  rewrite IH. apply Permutation_swap.
Qed.

Lemma sorted_perm l : sorted f l ≡ₚ l.
Proof.
  induction l as [|x l IH]; simpl; [done|].
  by rewrite insert_sorted_perm, IH.
Qed.

Lemma insert_sorted_strongly x l :
  StronglySorted le l → StronglySorted le (insert_sorted f x l).
Proof.
  induction 1 as [|y l Hs IH Hall]; simpl.
  - repeat constructor.
  - destruct (str_le (f x) (f y)) eqn:E.
    + constructor; [by constructor|].
      constructor; [done|].
      eapply Forall_impl; [exact Hall|].
      intros z Hz. unfold le in *. by eapply str_le_trans.
    + constructor; [done|].
      rewrite insert_sorted_perm. constructor; [|done].
      by apply str_le_total.
Qed.

Lemma sorted_strongly l : StronglySorted le (sorted f l).
Proof.
  induction l; simpl; [constructor|by apply insert_sorted_strongly].
Qed.

(** Entries with equal keys keep the order they had. *)
Lemma insert_sorted_stable c x l :
  filter (λ y, f y = c) (insert_sorted f x l) = filter (λ y, f y = c) (x :: l).
Proof.
  induction l as [|y l IH]; simpl; [done|].
  destruct (str_le (f x) (f y)) eqn:E; [done|].
  rewrite filter_cons, IH, !filter_cons.
  destruct (decide (f x = c)) as [Hx|Hx], (decide (f y = c)) as [Hy|Hy];
    try done.
  rewrite Hx, Hy, str_le_refl in E. done.
Qed.

Lemma sorted_stable c l :
  filter (λ y, f y = c) (sorted f l) = filter (λ y, f y = c) l.
Proof.
  induction l as [|x l IH]; simpl; [done|].
  rewrite insert_sorted_stable, !filter_cons, IH. done.
Qed.
End sorted.

Lemma insert_sorted_fmap {A B} (f : B → str) (g : A → B) x l :
  g <$> insert_sorted (f ∘ g) x l = insert_sorted f (g x) (g <$> l).
Proof.
  induction l as [|y l IH]; simpl; [done|].
  destruct (str_le (f (g x)) (f (g y))); simpl; [done|].
  f_equal. apply IH.
Qed.

Lemma sorted_fmap {A B} (f : B → str) (g : A → B) l :
  g <$> sorted (f ∘ g) l = sorted f (g <$> l).
Proof.
  induction l as [|x l IH]; [done|].
  change (g <$> insert_sorted (f ∘ g) x (sorted (f ∘ g) l)
          = insert_sorted f (g x) (sorted f (g <$> l))).
  rewrite <- IH. apply insert_sorted_fmap.
Qed.

(** ** The keyed catalog and the catalog *)

Lemma skill_step_erase fs st path :
  erase (skill_step_keyed fs st path) = skill_step fs (erase st) path.
Proof.
  destruct st as [kcs seen]. unfold skill_step_keyed, skill_step, erase; simpl.
  destruct (_parse_skill_md fs path) as [name desc].
  destruct (truthy name); [|done].
  case_decide; [|done]. simpl. by rewrite fmap_app.
Qed.

Lemma plugin_step_erase fs st path :
  erase (plugin_step_keyed fs st path) = plugin_step fs (erase st) path.
Proof.
  destruct st as [kcs seen]. unfold plugin_step_keyed, plugin_step, erase; simpl.
  destruct (plugin_name_of path); [|done].
  destruct (_parse_skill_md fs path) as [name desc].
  destruct (truthy name); [|done].
  case_decide; [done|]. simpl. by rewrite fmap_app.
Qed.

Lemma foldl_erase {P} (step_k : _ → P → _) (step : _ → P → _) paths :
  (∀ st p, erase (step_k st p) = step (erase st) p) →
  ∀ st, erase (foldl step_k st paths) = foldl step (erase st) paths.
Proof.
  intros Hstep. induction paths as [|p paths IH]; intros st; simpl; [done|].
  by rewrite IH, Hstep.
Qed.

Lemma discover_erase fs : erase (discover_keyed fs) = discover fs.
Proof.
  unfold discover_keyed, discover.
  rewrite (foldl_erase _ (plugin_step fs)) by apply plugin_step_erase.
  rewrite (foldl_erase _ (skill_step fs)) by apply skill_step_erase.
  done.
Qed.

Lemma collect_erase fs : snd <$> collect_keyed fs = _collect_skill_commands fs.
Proof.
  unfold collect_keyed, _collect_skill_commands.
  rewrite sorted_fmap, <- discover_erase. done.
Qed.

(** Forgetting the keys of the keyed catalog gives the catalog. *)
Lemma keyed_erase fs : snd <$> catalog_keyed fs = get_commands fs.
Proof.
  unfold catalog_keyed, get_commands.
  rewrite fmap_app, collect_erase. f_equal.
Qed.

Lemma keys_ok_add kcs (seen : gset key) k c :
  keys_ok (kcs, seen) → k ∉ seen → keys_ok (kcs ++ [(k, c)], {[k]} ∪ seen).
Proof.
  intros [Hnd Hin] Hk. split; simpl in *.
  - rewrite fmap_app. apply NoDup_app. split_and!; [done| |apply NoDup_singleton].
    intros k' Hk' Hs. apply list_elem_of_singleton in Hs.
    subst k'. by apply Hk, Hin.
  - intros k'. rewrite fmap_app, elem_of_app. simpl.
    rewrite list_elem_of_singleton. intros [Hk'|Hk'].
    + apply elem_of_union_r. by apply Hin.
    + subst k'. apply elem_of_union_l. by apply elem_of_singleton.
Qed.

Lemma skill_step_keys_ok fs st path :
  keys_ok st → keys_ok (skill_step_keyed fs st path).
Proof.
  destruct st as [kcs seen]. intros H. unfold skill_step_keyed.
  destruct (_parse_skill_md fs path) as [name desc].
  destruct (truthy name); [|done].
  case_decide; [|done]. by apply keys_ok_add.
Qed.

Lemma plugin_step_keys_ok fs st path :
  keys_ok st → keys_ok (plugin_step_keyed fs st path).
Proof.
  destruct st as [kcs seen]. intros H. unfold plugin_step_keyed.
  destruct (plugin_name_of path); [|done].
  destruct (_parse_skill_md fs path) as [name desc].
  destruct (truthy name); [|done].
  case_decide; [done|]. by apply keys_ok_add.
Qed.

Lemma foldl_keys_ok {P} (step : _ → P → _) paths :
  (∀ st p, keys_ok st → keys_ok (step st p)) →
  ∀ st, keys_ok st → keys_ok (foldl step st paths).
Proof.
  intros Hstep. induction paths as [|p paths IH]; intros st H; simpl; [done|].
  by apply IH, Hstep.
Qed.

Lemma discover_keys_ok fs : keys_ok (discover_keyed fs).
Proof.
  unfold discover_keyed.
  apply foldl_keys_ok; [apply plugin_step_keys_ok|].
  apply foldl_keys_ok; [apply skill_step_keys_ok|].
  split; simpl; [constructor|]. intros k Hk. by apply elem_of_nil in Hk.
Qed.

Lemma collect_keyed_NoDup fs : NoDup (fst <$> collect_keyed fs).
Proof.
  unfold collect_keyed. rewrite sorted_perm. apply discover_keys_ok.
Qed.

Lemma builtin_keyed_NoDup : NoDup (fst <$> builtin_keyed).
Proof. apply (bool_decide_unpack _). by vm_compute. Qed.

Lemma cmd_le_transitive : Transitive cmd_le.
Proof. intros x y z. unfold cmd_le. apply str_le_trans. Qed.

Lemma builtin_sorted : StronglySorted cmd_le BUILTIN_COMMANDS.
Proof. apply (bool_decide_unpack _). by vm_compute. Qed.

Lemma collect_sorted fs : StronglySorted cmd_le (_collect_skill_commands fs).
Proof. apply (sorted_strongly command). Qed.

(** ** C1: identity keys *)

(** C1, counterexample. With one user-level skill named [help] the catalog
    holds the built-in [/help] and the skill [/help], both under the
    identity key [help]. *)
Lemma catalog_keys_duplicate :
  catalog_keyed fs_help !! 7%nat
    = Some (KName (str_of "help"), builtin "/help" "Show help" true) ∧
  catalog_keyed fs_help !! 23%nat
    = Some (KName (str_of "help"),
            mkCommand (str_of "/help") (str_of "My help") true) ∧
  snd <$> catalog_keyed fs_help = get_commands fs_help ∧
  ¬ NoDup (fst <$> catalog_keyed fs_help).
Proof.
  split_and!; [by vm_compute..|apply keyed_erase|].
  intros H. apply (bool_decide_pack _) in H. by vm_compute in H.
Qed.

(** C1, amended. The keyed catalog is the catalog; no two built-ins share
    an identity key and no two discovered entries share one; the whole
    catalog is free of duplicate keys exactly when no discovered key is the
    bare name of a built-in, which only a user-level skill can be. *)
Theorem catalog_keys_distinct_per_tier fs :
  snd <$> catalog_keyed fs = get_commands fs ∧
  NoDup (fst <$> builtin_keyed) ∧
  NoDup (fst <$> collect_keyed fs) ∧
  (∀ p n, KPlugin p n ∉ fst <$> builtin_keyed) ∧
  (NoDup (fst <$> catalog_keyed fs) ↔
   ∀ k, k ∈ fst <$> builtin_keyed → k ∉ fst <$> collect_keyed fs).
Proof.
  split_and!.
  - apply keyed_erase.
  - apply builtin_keyed_NoDup.
  - apply collect_keyed_NoDup.
  - intros p n H. apply list_elem_of_fmap in H as [[k c] [Hk Hin]].
    apply list_elem_of_fmap in Hin as [c' [Hc _]].
    simpl in Hk. inversion Hc; subst. discriminate.
  - unfold catalog_keyed. rewrite fmap_app, NoDup_app.
    pose proof builtin_keyed_NoDup as Hb.
    pose proof (collect_keyed_NoDup fs) as Hc.
    split; [by intros (_ & Hd & _)|]. intros Hd. by split_and!.
Qed.

(** ** C2: order of the whole catalog *)

(** C2, counterexample. With one user-level skill [deploy] the catalog
    ends with [/vim], [/deploy]: it is not ordered by command string. *)
Lemma catalog_not_sorted :
  command <$> drop 22 (get_commands fs_deploy)
    = [str_of "/vim"; str_of "/deploy"] ∧
  ¬ Sorted cmd_le (get_commands fs_deploy).
Proof.
  split; [by vm_compute|].
  intros H. apply (bool_decide_pack _) in H. by vm_compute in H.
Qed.

(** C2, amended. The catalog is the built-in block followed by the
    discovered block; each block is in lexicographic order of its command
    strings; the whole sequence is in that order exactly when no discovered
    command sorts before the last built-in, [/vim]. *)
Theorem catalog_sorted_by_block fs :
  get_commands fs = BUILTIN_COMMANDS ++ _collect_skill_commands fs ∧
  StronglySorted cmd_le BUILTIN_COMMANDS ∧
  StronglySorted cmd_le (_collect_skill_commands fs) ∧
  (Sorted cmd_le (get_commands fs) ↔
   Forall (λ c, str_le VIM (command c) = true) (_collect_skill_commands fs)).
Proof.
  split_and!; [done|apply builtin_sorted|apply collect_sorted|].
  unfold get_commands. split.
  - intros H. apply Sorted_StronglySorted in H; [|apply cmd_le_transitive].
    apply Forall_forall. intros c Hc.
    apply (StronglySorted_app_1_elem_of _ _ _ (builtin "/vim" "Enter vim mode" false) c H);
      [|done].
    apply list_elem_of_lookup. by exists 22%nat.
  - intros H. apply StronglySorted_Sorted, StronglySorted_app_2;
      [|apply builtin_sorted|apply collect_sorted].
    intros b c Hb Hc. rewrite Forall_forall in H.
    unfold cmd_le. apply str_le_trans with VIM; [|by apply H].
    revert b Hb. apply Forall_forall.
    apply (bool_decide_unpack _). by vm_compute.
Qed.

(** ** C3: built-ins first, discovered entries sorted *)

(** C3, counterexample. A user-level skill [toolkit] and the skill
    [toolkit] of the plugin [toolkit] both get the command [/toolkit]: the
    discovered block holds the same command string twice, so it is not
    strictly increasing. *)
Lemma discovered_not_strictly_sorted :
  drop 23 (get_commands fs_toolkit)
    = [ mkCommand (str_of "/toolkit") (str_of "Tools") true;
        mkCommand (str_of "/toolkit") (str_of "Tools") true ] ∧
  ¬ Sorted cmd_lt (drop 23 (get_commands fs_toolkit)).
Proof.
  split; [by vm_compute|].
  intros H. apply (bool_decide_pack _) in H. by vm_compute in H.
Qed.

(** C3, amended. The first 23 entries of the catalog are the built-ins in
    their fixed order; the rest are the discovered entries, in
    non-decreasing order of their command strings (equal command strings
    can occur), entries with equal command strings in the order of their
    discovery. *)
Theorem catalog_builtins_then_sorted fs :
  take 23 (get_commands fs) = BUILTIN_COMMANDS ∧
  drop 23 (get_commands fs) = _collect_skill_commands fs ∧
  StronglySorted cmd_le (drop 23 (get_commands fs)) ∧
  drop 23 (get_commands fs) ≡ₚ (discover fs).1 ∧
  ∀ c, filter (λ x, command x = c) (drop 23 (get_commands fs))
       = filter (λ x, command x = c) (discover fs).1.
Proof.
  assert (drop 23 (get_commands fs) = _collect_skill_commands fs) as Hd by done.
  split_and!; [done|done|rewrite Hd; apply collect_sorted|..]; rewrite Hd.
  - apply sorted_perm.
  - intros c. apply (sorted_stable command).
Qed.

(** ** Paths *)

Lemma split_nonempty sep s : split sep s ≠ [].
Proof.
  destruct s as [|c s]; simpl; [done|].
  destruct (c =? sep); [done|]. by destruct (split sep s).
Qed.

Lemma split_app sep s t :
  sep ∉ s → split sep (s ++ sep :: t) = s :: split sep t.
Proof.
  induction s as [|c s IH]; intros Hs; simpl.
  - by rewrite N.eqb_refl.
  - apply not_elem_of_cons in Hs as [Hc Hs].
    destruct (N.eqb_spec c sep) as [->|_]; [done|].
    by rewrite IH.
Qed.

Lemma split_no_sep sep s : sep ∉ s → split sep s = [s].
Proof.
  induction s as [|c s IH]; intros Hs; simpl; [done|].
  apply not_elem_of_cons in Hs as [Hc Hs].
  destruct (N.eqb_spec c sep) as [->|_]; [done|].
  by rewrite IH.
Qed.

(** Splitting a joined path gives back its segments. *)
Lemma split_join sep segs :
  segs ≠ [] → Forall (λ p, sep ∉ p) segs → split sep (join sep segs) = segs.
Proof.
  induction segs as [|p segs IH]; intros Hne Hall; [done|].
  apply Forall_cons in Hall as [Hp Hall].
  destruct segs as [|q segs]; [by apply split_no_sep|].
  change (join sep (p :: q :: segs)) with (p ++ sep :: join sep (q :: segs)).
  rewrite split_app by done. by rewrite IH.
Qed.

Lemma index_app x pre rest :
  x ∉ pre → index x (pre ++ x :: rest) = Some (length pre).
Proof.
  induction pre as [|p pre IH]; intros Hx; simpl.
  - by rewrite decide_True.
  - apply not_elem_of_cons in Hx as [Hp Hx].
    rewrite decide_False by done. by rewrite IH.
Qed.

(** The plugin identity is the second segment after the first [cache]
    segment. *)
Lemma plugin_name_of_join pre tail :
  str_of "cache" ∉ pre →
  Forall (λ p, SEP ∉ p) (pre ++ str_of "cache" :: tail) →
  plugin_name_of (join SEP (pre ++ str_of "cache" :: tail)) = tail !! 1%nat.
Proof.
  intros Hpre Hall. unfold plugin_name_of.
  rewrite split_join; [|by destruct pre|done].
  rewrite index_app by done.
  rewrite lookup_app_r by lia.
  replace (length pre + 2 - length pre)%nat with 2%nat by lia. done.
Qed.

(** ** The header pattern *)









(** The patterns at work. The closing delimiter only has to start a line;
    [\s*] runs over line ends, so an empty [name:] line takes the next
    line as the name; quotes around a name are stripped. *)
Example frontmatter_loose_end :
  re_match FRONTMATTER_RE
    (str_of "---" ++ [NL] ++ str_of "name: x" ++ [NL] ++ str_of "---tail")
  = Some (str_of "name: x").
Proof. vm_compute. reflexivity. Qed.

Example name_from_next_line :
  re_search NAME_RE (str_of "name:" ++ [NL] ++ str_of "description: x")
  = Some (str_of "description: x").
Proof. vm_compute. reflexivity. Qed.

Example name_quoted :
  (λ g, strip_quote (strip g)) <$>
    re_search NAME_RE (str_of "title: t" ++ [NL] ++ str_of "name:  "
                       ++ [QUOTE] ++ str_of "my skill" ++ [QUOTE; 32])
  = Some (str_of "my skill").
Proof. vm_compute. reflexivity. Qed.

Example name_missing :
  re_search NAME_RE (str_of "title: t" ++ [NL] ++ str_of " name: x") = None.
Proof. vm_compute. reflexivity. Qed.

(** ** C8: plugin descriptors *)

(** C8. For a plugin descriptor whose path has the segments [pre], then
    [cache], then [tail], [cache] not occurring in [pre]: the plugin
    identity is the second segment after [cache]; without such a segment
    the record is dropped; a record with a name not seen before appends the
    command "/" + name when the plugin identity is the name and
    "/" + plugin + ":" + name otherwise; a descriptor named [build] under
    [cache/<market>/toolkit/<version>/] gives [/toolkit:build]. *)
Theorem plugin_identity_and_command fs commands seen pre tail path :
  str_of "cache" ∉ pre →
  Forall (λ p, SEP ∉ p) (pre ++ str_of "cache" :: tail) →
  path = join SEP (pre ++ str_of "cache" :: tail) →
  plugin_name_of path = tail !! 1%nat ∧
  (tail !! 1%nat = None →
   plugin_step fs (commands, seen) path = (commands, seen)) ∧
  (∀ plugin_name name desc,
     tail !! 1%nat = Some plugin_name →
     _parse_skill_md fs path = (Some name, desc) → name ≠ [] →
     KPlugin plugin_name name ∉ seen →
     plugin_step fs (commands, seen) path
     = (commands ++
          [mkCommand
             (if decide (plugin_name = name) then str_of "/" ++ name
              else str_of "/" ++ plugin_name ++ str_of ":" ++ name)
             desc true],
        {[KPlugin plugin_name name]} ∪ seen)) ∧
  (∀ market version file desc,
     tail = [market; str_of "toolkit"; version; file] →
     _parse_skill_md fs path = (Some (str_of "build"), desc) →
     skills_glob fs = [] → plugins_glob fs = [path] →
     get_commands fs
     = BUILTIN_COMMANDS ++ [mkCommand (str_of "/toolkit:build") desc true]).
Proof.
  intros Hpre Hall ->.
  pose proof (plugin_name_of_join pre tail Hpre Hall) as Hname.
  split_and!.
  - done.
  - intros Hnone. unfold plugin_step. by rewrite Hname, Hnone.
  - intros plugin_name name desc Hsome Hparse Hne Hseen.
    unfold plugin_step. rewrite Hname, Hsome, Hparse.
    destruct name as [|c name]; [done|]. simpl.
    rewrite decide_False by done.
    unfold plugin_command.
    destruct (decide (plugin_name = c :: name)) as [Heq|Hneq].
    + rewrite (decide_False (P := plugin_name ≠ c :: name)) by tauto. done.
    + rewrite (decide_True (P := plugin_name ≠ c :: name)) by done. done.
  - intros market version file desc -> Hparse Hskills Hplugins.
    unfold get_commands, _collect_skill_commands, discover.
    rewrite Hskills, Hplugins. simpl.
    unfold plugin_step. rewrite Hname, Hparse. simpl.
    rewrite decide_False by set_solver. done.
Qed.

(** C8, at [/home/u/.claude/plugins/cache/market1/toolkit/1.0.0/SKILL.md]. *)
Lemma plugin_identity_and_command_witness :
  plugin_name_of build_path = Some (str_of "toolkit") ∧
  get_commands fs_build
  = BUILTIN_COMMANDS ++
    [mkCommand (str_of "/toolkit:build") (str_of "Build the project") true].
Proof.
  pose (pre := [[]; str_of "home"; str_of "u"; str_of ".claude";
                str_of "plugins"]).
  pose (tail := [str_of "market1"; str_of "toolkit"; str_of "1.0.0";
                 str_of "SKILL.md"]).
  assert (str_of "cache" ∉ pre) as H1
    by (apply (bool_decide_unpack _); vm_compute; exact I).
  assert (Forall (λ p, SEP ∉ p) (pre ++ str_of "cache" :: tail)) as H2
    by (apply (bool_decide_unpack _); vm_compute; exact I).
  assert (build_path = join SEP (pre ++ str_of "cache" :: tail)) as H3
    by (vm_compute; reflexivity).
  destruct (plugin_identity_and_command fs_build [] ∅ pre tail build_path
              H1 H2 H3) as (Ha & _ & _ & Hd).
  split; [exact Ha|].
  apply (Hd (str_of "market1") (str_of "1.0.0") (str_of "SKILL.md"));
    vm_compute; reflexivity.
Defined.

(** ** C9: user-level descriptors *)





(** The scenario's descriptor is of the shape the specification
    describes, with the name [deploy]. *)
Example spec_name_deploy :
  spec_name (skill_md "deploy" "Deploy app") = Some (str_of "deploy").
Proof. vm_compute. reflexivity. Qed.




(** ** The pane mirror *)

Section mirror.
Context (TMUX : str) (json_dumps : str → str).

Local Abbreviation cycle' := (cycle TMUX json_dumps).
Local Abbreviation generator := (event_generator_from TMUX json_dumps).
Local Abbreviation capture := (capture_argv TMUX).

Lemma cycle_completed prev w p :
  oracle w (length (calls w)) capture = Completed p →
  cycle' prev w
  = (inr (if decide (Some (stdout p) ≠ prev)
          then ([sse_event json_dumps (stdout p)], Some (stdout p))
          else ([], prev)),
     after w [capture]).
Proof.
  intros H. unfold cycle, try_except, mbind, M_bind, subprocess_run.
  rewrite H. by case_decide.
Qed.

Lemma cycle_raised prev w e :
  oracle w (length (calls w)) capture = Raised e →
  cycle' prev w = (inr ([], prev), after w [capture]).
Proof.
  intros H. unfold cycle, try_except, mbind, M_bind, subprocess_run.
  by rewrite H.
Qed.

(** A turn never raises. *)
Lemma cycle_total prev w :
  ∃ events prev', cycle' prev w = (inr (events, prev'), after w [capture]).
Proof.
  destruct (oracle w (length (calls w)) capture) as [p|e] eqn:E.
  - rewrite (cycle_completed _ _ _ E). case_decide; eauto.
  - rewrite (cycle_raised _ _ _ E). eauto.
Qed.

Lemma generator_step n prev w events prev' w1 :
  cycle' prev w = (inr (events, prev'), w1) →
  generator (S n) prev w
  = match generator n prev' w1 with
    | (inr rest, w2) => (inr (events ++ rest), w2)
    | (inl e, w2) => (inl e, w2)
    end.
Proof.
  intros H. cbn [event_generator_from]. unfold mbind, M_bind at 1.
  rewrite H. unfold M_bind.
  by destruct (generator n prev' w1) as [[e|rest] w2].
Qed.

(** The loop yields and goes on: it never raises. *)
Lemma generator_total n : ∀ prev w,
  ∃ events w', generator n prev w = (inr events, w').
Proof.
  induction n as [|n IH]; intros prev w; [by eexists _, _|].
  destruct (cycle_total prev w) as (events & prev' & Hc).
  rewrite (generator_step _ _ _ _ _ _ Hc).
  destruct (IH prev' (after w [capture])) as (rest & w2 & ->). eauto.
Qed.

Lemma generator_skip n prev w :
  cycle' prev w = (inr ([], prev), after w [capture]) →
  generator (S n) prev w = generator n prev (after w [capture]).
Proof.
  intros H. rewrite (generator_step _ _ _ _ _ _ H).
  by destruct (generator_total n prev (after w [capture])) as (? & ? & ->).
Qed.

Lemma generator_emit n prev w cur :
  cycle' prev w
  = (inr ([sse_event json_dumps cur], Some cur), after w [capture]) →
  ∃ rest w',
    generator n (Some cur) (after w [capture]) = (inr rest, w') ∧
    generator (S n) prev w = (inr (sse_event json_dumps cur :: rest), w').
Proof.
  intros H. rewrite (generator_step _ _ _ _ _ _ H).
  destruct (generator_total n (Some cur) (after w [capture]))
    as (rest & w' & ->).
  eauto.
Qed.
End mirror.

(** A subscriber of [w_panes], five turns: the timed-out capture yields
    nothing, "A\nB" is yielded once, "A\nB\nC" once, and so is the empty
    text of the capture that exits with status 1. *)
Example mirror_scenario :
  (event_generator TMUX_default json_dumps_plain 5 w_panes).1
  = inr [ sse_event json_dumps_plain pane_AB;
          sse_event json_dumps_plain pane_ABC;
          sse_event json_dumps_plain [] ].
Proof. vm_compute. reflexivity. Qed.

(** ** C4: a turn whose capture succeeds *)

(** C4. In a turn whose capture completes with the text [current]: when
    [current] is the baseline, nothing is yielded, the baseline stays and
    the loop goes on as if from the next turn; when it differs (or there is
    no baseline yet), exactly one event is yielded, the whole of [current]
    encoded, and the rest of the loop runs with [current] as baseline. *)
Theorem mirror_turn_on_capture TMUX json_dumps prev w p :
  oracle w (length (calls w)) (capture_argv TMUX) = Completed p →
  let current := stdout p in
  let w' := after w [capture_argv TMUX] in
  (prev = Some current →
   cycle TMUX json_dumps prev w = (inr ([], prev), w') ∧
   ∀ n, event_generator_from TMUX json_dumps (S n) prev w
        = event_generator_from TMUX json_dumps n prev w') ∧
  (prev ≠ Some current →
   cycle TMUX json_dumps prev w
   = (inr ([str_of "data: " ++ json_dumps current ++ [NL; NL]], Some current),
      w') ∧
   ∀ n, ∃ rest w'',
     event_generator_from TMUX json_dumps n (Some current) w'
     = (inr rest, w'') ∧
     event_generator_from TMUX json_dumps (S n) prev w
     = (inr ((str_of "data: " ++ json_dumps current ++ [NL; NL]) :: rest),
        w'')).
Proof.
  intros H current w'. pose proof (cycle_completed TMUX json_dumps prev w p H) as Hc.
  split; intros Hp.
  - rewrite decide_False in Hc by (intros Hn; by apply Hn).
    split; [done|]. intros n. by apply generator_skip.
  - rewrite decide_True in Hc by (intros Hn; by apply Hp).
    split; [done|]. intros n. by apply generator_emit.
Qed.

(** C4, on the captures "A\nB", "A\nB", "A\nB\nC" that follow a first
    event "A\nB": the two turns on the unchanged pane yield nothing, the
    third yields the new pane, whole. *)
Lemma mirror_turn_on_capture_witness :
  let w1 := after w_panes [capture_argv TMUX_default;
                           capture_argv TMUX_default] in
  let w2 := after w1 [capture_argv TMUX_default] in
  (cycle TMUX_default json_dumps_plain (Some pane_AB) w1).1
    = inr ([], Some pane_AB) ∧
  (cycle TMUX_default json_dumps_plain (Some pane_AB) w2).1
    = inr ([str_of "data: " ++ json_dumps_plain pane_ABC ++ [NL; NL]],
           Some pane_ABC).
Proof.
  intros w1 w2. split.
  - assert (oracle w1 (length (calls w1)) (capture_argv TMUX_default)
            = Completed (mkCompleted 0 pane_AB)) as H by reflexivity.
    destruct (mirror_turn_on_capture TMUX_default json_dumps_plain
                (Some pane_AB) w1 _ H) as [Hsame _].
    destruct (Hsame eq_refl) as [-> _]. reflexivity.
  - assert (oracle w2 (length (calls w2)) (capture_argv TMUX_default)
            = Completed (mkCompleted 0 pane_ABC)) as H by reflexivity.
    destruct (mirror_turn_on_capture TMUX_default json_dumps_plain
                (Some pane_AB) w2 _ H) as [_ Hdiff].
    destruct Hdiff as [-> _]; [vm_compute; discriminate|reflexivity].
Defined.

(** ** C5: a turn whose capture fails *)

(** C5. In a turn whose [subprocess.run] raises (the tool cannot be
    started, the timeout expires), nothing is yielded, the baseline is the
    one before, and the loop goes on with the next turn. *)
Theorem mirror_turn_on_failure TMUX json_dumps prev w :
  raises w (length (calls w)) (capture_argv TMUX) →
  cycle TMUX json_dumps prev w
  = (inr ([], prev), after w [capture_argv TMUX]) ∧
  ∀ n, event_generator_from TMUX json_dumps (S n) prev w
       = event_generator_from TMUX json_dumps n prev
           (after w [capture_argv TMUX]).
Proof.
  intros [e H]. pose proof (cycle_raised TMUX json_dumps prev w e H) as Hc.
  split; [done|]. intros n. by apply generator_skip.
Qed.

(** C5, on a capture that times out. *)
Lemma mirror_turn_on_failure_witness :
  cycle TMUX_default json_dumps_plain (Some pane_AB) w_timeout
  = (inr ([], Some pane_AB), after w_timeout [capture_argv TMUX_default]).
Proof.
  apply (mirror_turn_on_failure TMUX_default json_dumps_plain
           (Some pane_AB) w_timeout).
  exists TimeoutExpired. reflexivity.
Defined.

(** ** C10: the first event of a subscriber *)

(** C10. A new subscriber starts without a baseline, which no capture
    equals: after any number [k] of failed captures, the first capture that
    completes is yielded, whatever its text, the empty one too. *)
Theorem mirror_first_capture TMUX json_dumps w k p m :
  (∀ i, (i < k)%nat →
        raises w (length (calls w) + i) (capture_argv TMUX)) →
  oracle w (length (calls w) + k) (capture_argv TMUX) = Completed p →
  ∃ rest w',
    event_generator TMUX json_dumps (k + S m) w
    = (inr (sse_event json_dumps (stdout p) :: rest), w').
Proof.
  unfold event_generator. revert w.
  induction k as [|k IH]; intros w Hfail Hok.
  - rewrite Nat.add_0_r in Hok. simpl Nat.add.
    pose proof (cycle_completed TMUX json_dumps None w p Hok) as Hc.
    rewrite decide_True in Hc by done.
    destruct (generator_emit TMUX json_dumps m None w _ Hc) as (rest & w' & _ & ->).
    eauto.
  - destruct (Hfail 0%nat) as [e He]; [lia|]. rewrite Nat.add_0_r in He.
    pose proof (cycle_raised TMUX json_dumps None w e He) as Hc.
    change (S k + S m)%nat with (S (k + S m)).
    rewrite (generator_skip TMUX json_dumps _ _ _ Hc).
    apply IH.
    + intros i Hi. simpl. rewrite length_app. simpl.
      replace (length (calls w) + 1 + i)%nat with (length (calls w) + S i)%nat by lia.
      apply Hfail. lia.
    + simpl. rewrite length_app. simpl.
      replace (length (calls w) + 1 + k)%nat with (length (calls w) + S k)%nat by lia.
      done.
Qed.

(** C10, on a subscriber whose first capture times out and whose second
    shows "A\nB"; and on one whose first capture is the empty text. *)
Lemma mirror_first_capture_witness :
  (∃ rest w',
     event_generator TMUX_default json_dumps_plain 5 w_panes
     = (inr (sse_event json_dumps_plain pane_AB :: rest), w')) ∧
  (∃ rest w',
     event_generator TMUX_default json_dumps_plain 1 w_ok
     = (inr (sse_event json_dumps_plain [] :: rest), w')).
Proof.
  split.
  - apply (mirror_first_capture TMUX_default json_dumps_plain w_panes 1
             (mkCompleted 0 pane_AB) 3).
    + intros i Hi. exists TimeoutExpired.
      assert (i = 0%nat) as -> by lia. reflexivity.
    + reflexivity.
  - apply (mirror_first_capture TMUX_default json_dumps_plain w_ok 0
             (mkCompleted 0 []) 0).
    + intros i Hi. lia.
    + reflexivity.
Defined.

(** ** The input injector *)

Lemma run_completed argv w p :
  oracle w (length (calls w)) argv = Completed p →
  subprocess_run argv w = (inr p, after w [argv]).
Proof. intros H. unfold subprocess_run. by rewrite H. Qed.

Lemma run_raised argv w e :
  oracle w (length (calls w)) argv = Raised e →
  subprocess_run argv w = (inl e, after w [argv]).
Proof. intros H. unfold subprocess_run. by rewrite H. Qed.

Lemma after_after w l1 l2 : after (after w l1) l2 = after w (l1 ++ l2).
Proof. unfold after. simpl. by rewrite app_assoc. Qed.

Lemma length_calls_after w argv :
  length (calls (after w [argv])) = S (length (calls w)).
Proof. simpl. rewrite length_app. simpl. lia. Qed.

(** [send_text], by the outcome of its calls. *)
Lemma send_text_cases TMUX text w :
  let n := length (calls w) in
  let lit := literal_argv TMUX text in
  let enter := key_argv TMUX (str_of "Enter") in
  send_text TMUX text w
  = match oracle w n lit with
    | Raised e => (inl e, after w [lit])
    | Completed _ =>
        match oracle w (S n) enter with
        | Raised e => (inl e, after w [lit; enter])
        | Completed _ => (inr status_sent, after w [lit; enter])
        end
    end.
Proof.
  cbv zeta. unfold send_text, mbind, M_bind.
  destruct (oracle w (length (calls w)) (literal_argv TMUX text))
    as [p|e] eqn:E1.
  - rewrite (run_completed _ _ _ E1).
    destruct (oracle w (S (length (calls w))) (key_argv TMUX (str_of "Enter")))
      as [q|e] eqn:E2.
    + rewrite (run_completed _ _ q), after_after; [done|].
      by rewrite length_calls_after.
    + rewrite (run_raised _ _ e), after_after; [done|].
      by rewrite length_calls_after.
  - by rewrite (run_raised _ _ _ E1).
Qed.

Lemma send_key_cases TMUX key w :
  send_key TMUX key w
  = match oracle w (length (calls w)) (key_argv TMUX key) with
    | Raised e => (inl e, after w [key_argv TMUX key])
    | Completed _ => (inr status_sent, after w [key_argv TMUX key])
    end.
Proof.
  unfold send_key, mbind, M_bind.
  destruct (oracle w _ _) as [p|e] eqn:E.
  - by rewrite (run_completed _ _ _ E).
  - by rewrite (run_raised _ _ _ E).
Qed.

(** ** C6: literal text, then Enter *)

(** C6. [send_text text] first hands the session [send-keys -l text], the
    text being one argument after the literal flag [-l]; nothing but the
    key [Enter] follows it, in a call of its own; when the first call
    returns, the calls are exactly these two, in this order. *)
Theorem send_text_literal_then_enter TMUX text w :
  let lit := [TMUX; str_of "send-keys"; str_of "-t"; str_of "claude";
              str_of "-l"; text] in
  let enter := [TMUX; str_of "send-keys"; str_of "-t"; str_of "claude";
                str_of "Enter"] in
  (∃ more, calls (send_text TMUX text w).2 = calls w ++ lit :: more
           ∧ (more = [] ∨ more = [enter])) ∧
  (completes w (length (calls w)) lit →
   calls (send_text TMUX text w).2 = calls w ++ [lit; enter]) ∧
  (completes w (length (calls w)) lit →
   completes w (S (length (calls w))) enter →
   send_text TMUX text w = (inr status_sent, after w [lit; enter])).
Proof.
  intros lit enter. rewrite send_text_cases.
  change (literal_argv TMUX text) with lit.
  change (key_argv TMUX (str_of "Enter")) with enter.
  split_and!.
  - destruct (oracle w _ lit); [destruct (oracle w _ enter)|]; simpl.
    + exists [enter]. eauto.
    + exists [enter]. eauto.
    + exists []. eauto.
  - intros [p ->]. by destruct (oracle w _ enter).
  - intros [p ->] [q ->]. done.
Qed.

(** C6, on "hello" in a world whose calls complete. *)
Lemma send_text_literal_then_enter_witness :
  calls (send_text TMUX_default (str_of "hello") w_ok).2
  = [ [TMUX_default; str_of "send-keys"; str_of "-t"; str_of "claude";
       str_of "-l"; str_of "hello"];
      [TMUX_default; str_of "send-keys"; str_of "-t"; str_of "claude";
       str_of "Enter"] ].
Proof.
  apply (send_text_literal_then_enter TMUX_default (str_of "hello") w_ok).
  exists (mkCompleted 0 []). reflexivity.
Defined.

(** ** C7: the answers of POST /send and POST /key *)

(** C7. POST /send answers [{"status": "sent"}] when both of its calls
    return, and POST /key when its call returns. A call that raises (tool
    not started, timeout) ends the request with an error response and
    without the payload; the call that raised is not made again, and after
    a failed first call of /send no second call is made. *)
Theorem send_status_or_failure TMUX text key w :
  let n := length (calls w) in
  let lit := literal_argv TMUX text in
  let enter := key_argv TMUX (str_of "Enter") in
  let k := key_argv TMUX key in
  (completes w n lit → completes w (S n) enter →
   post_send TMUX text w = (Ok200 [(str_of "status", str_of "sent")], after w [lit; enter])) ∧
  (raises w n lit →
   post_send TMUX text w = (Error500, after w [lit])) ∧
  (completes w n lit → raises w (S n) enter →
   post_send TMUX text w = (Error500, after w [lit; enter])) ∧
  (completes w n k →
   post_key TMUX key w = (Ok200 [(str_of "status", str_of "sent")], after w [k])) ∧
  (raises w n k →
   post_key TMUX key w = (Error500, after w [k])).
Proof.
  intros n lit enter k. unfold post_send, post_key, serve.
  rewrite send_text_cases, send_key_cases.
  fold n lit enter k.
  split_and!.
  - intros [p ->] [q ->]. done.
  - intros [e ->]. done.
  - intros [p ->] [e ->]. done.
  - intros [p ->]. done.
  - intros [e ->]. done.
Qed.

(** C7, on a world whose calls complete, one whose calls time out and one
    where only the Enter call times out. *)
Lemma send_status_or_failure_witness :
  (post_send TMUX_default (str_of "hello") w_ok).1 = Ok200 [(str_of "status", str_of "sent")] ∧
  (post_key TMUX_default (str_of "C-c") w_ok).1 = Ok200 [(str_of "status", str_of "sent")] ∧
  (post_send TMUX_default (str_of "hello") w_timeout).1 = Error500 ∧
  (post_send TMUX_default (str_of "hello") w_enter_timeout).1 = Error500 ∧
  (post_key TMUX_default (str_of "C-c") w_timeout).1 = Error500.
Proof.
  destruct (send_status_or_failure TMUX_default (str_of "hello")
              (str_of "C-c") w_ok) as (H1 & _ & _ & H4 & _).
  destruct (send_status_or_failure TMUX_default (str_of "hello")
              (str_of "C-c") w_timeout) as (_ & H2 & _ & _ & H5).
  destruct (send_status_or_failure TMUX_default (str_of "hello")
              (str_of "C-c") w_enter_timeout) as (_ & _ & H3 & _ & _).
  split_and!.
  - rewrite H1; [reflexivity| |]; exists (mkCompleted 0 []); reflexivity.
  - rewrite H4; [reflexivity|]. exists (mkCompleted 0 []); reflexivity.
  - rewrite H2; [reflexivity|]. exists TimeoutExpired; reflexivity.
  - rewrite H3; [reflexivity| |].
    + exists (mkCompleted 0 []); reflexivity.
    + exists TimeoutExpired; reflexivity.
  - rewrite H5; [reflexivity|]. exists TimeoutExpired; reflexivity.
Defined.

(** ** The discovery loops as one pass over the scan *)

Local Ltac solve_set := set_unfold; try intros ?; intuition congruence.

Lemma skill_step_keyed_add fs st path :
  skill_step_keyed fs st path
  = from_option (add_entry st) st (skill_entry fs path).
Proof.
  destruct st as [kcs seen]. unfold skill_step_keyed, skill_entry, add_entry.
  destruct (_parse_skill_md fs path) as [name desc].
  destruct (truthy name) as [n|]; simpl; [|done].
  destruct (decide (KName n ∈ seen)).
  - by rewrite decide_False by tauto.
  - by rewrite decide_True.
Qed.

Lemma plugin_step_keyed_add fs st path :
  plugin_step_keyed fs st path
  = from_option (add_entry st) st (plugin_entry fs path).
Proof.
  destruct st as [kcs seen]. unfold plugin_step_keyed, plugin_entry, add_entry.
  destruct (plugin_name_of path) as [p|]; [|done].
  destruct (_parse_skill_md fs path) as [name desc].
  by destruct (truthy name) as [n|].
Qed.

Lemma foldl_from_option {P} (entry : P → option (key * Command)) step paths :
  (∀ st p, step st p = from_option (add_entry st) st (entry p)) →
  ∀ st, foldl step st paths = foldl add_entry st (omap entry paths).
Proof.
  intros Hstep. induction paths as [|p paths IH]; intros st; simpl; [done|].
  rewrite IH, Hstep. by destruct (entry p).
Qed.

Lemma foldl_add_entry l : ∀ kcs seen,
  foldl add_entry (kcs, seen) l
  = (kcs ++ first_by_key seen l, list_to_set (fst <$> l) ∪ seen).
Proof.
  induction l as [|kc l IH]; intros kcs seen; simpl.
  - rewrite app_nil_r. f_equal. solve_set.
  - unfold add_entry at 2. simpl. destruct (decide (kc.1 ∈ seen)).
    + rewrite IH. f_equal. solve_set.
    + rewrite IH, <- app_assoc. f_equal. solve_set.
Qed.

Lemma first_by_key_app l1 : ∀ seen l2,
  first_by_key seen (l1 ++ l2)
  = first_by_key seen l1
    ++ first_by_key (list_to_set (fst <$> l1) ∪ seen) l2.
Proof.
  induction l1 as [|kc l1 IH]; intros seen l2; simpl.
  - f_equal. solve_set.
  - destruct (decide (kc.1 ∈ seen)).
    + rewrite IH. do 2 f_equal. solve_set.
    + rewrite IH. simpl. do 3 f_equal. solve_set.
Qed.

Lemma discover_keyed_first fs :
  (discover_keyed fs).1 = first_by_key ∅ (scan_entries fs).
Proof.
  unfold discover_keyed, scan_entries.
  rewrite (foldl_from_option (plugin_entry fs))
    by apply plugin_step_keyed_add.
  rewrite (foldl_from_option (skill_entry fs))
    by apply skill_step_keyed_add.
  rewrite foldl_add_entry. simpl. rewrite foldl_add_entry. simpl.
  by rewrite first_by_key_app.
Qed.

Lemma discover_first fs :
  (discover fs).1 = snd <$> first_by_key ∅ (scan_entries fs).
Proof. by rewrite <- discover_erase, <- discover_keyed_first. Qed.

(** What [first_by_key] keeps. *)
Lemma first_by_key_elem l : ∀ seen kc,
  kc ∈ first_by_key seen l → kc ∈ l ∧ kc.1 ∉ seen.
Proof.
  induction l as [|x l IH]; intros seen kc; simpl.
  - by intros ?%elem_of_nil.
  - destruct (decide (x.1 ∈ seen)).
    + intros [? ?]%IH. split; [by right|done].
    + intros [->|[? ?]%IH]%elem_of_cons; [split; [by left|done]|].
      split; [by right|solve_set].
Qed.

Lemma first_by_key_first l1 : ∀ seen kc l2,
  kc.1 ∉ seen → kc.1 ∉ fst <$> l1 →
  kc ∈ first_by_key seen (l1 ++ kc :: l2).
Proof.
  induction l1 as [|x l1 IH]; intros seen kc l2 Hseen Hl1; simpl.
  - rewrite decide_False by done. by left.
  - rewrite fmap_cons, not_elem_of_cons in Hl1. destruct Hl1 as [Hx Hl1].
    destruct (decide (x.1 ∈ seen)); [by apply IH|].
    right. apply IH; [solve_set|done].
Qed.

Lemma first_by_key_keys l : ∀ seen k,
  k ∈ fst <$> first_by_key seen l ↔ k ∈ fst <$> l ∧ k ∉ seen.
Proof.
  induction l as [|x l IH]; intros seen k; simpl.
  - rewrite elem_of_nil. tauto.
  - destruct (decide (x.1 ∈ seen)).
    + rewrite IH, elem_of_cons. split; [tauto|].
      intros [[->|?] ?]; tauto.
    + rewrite fmap_cons, !elem_of_cons, IH.
      rewrite not_elem_of_union, not_elem_of_singleton.
      destruct (decide (k = x.1)) as [->|]; tauto.
Qed.

Lemma first_by_key_NoDup l : ∀ seen, NoDup (fst <$> first_by_key seen l).
Proof.
  induction l as [|x l IH]; intros seen; simpl; [constructor|].
  destruct (decide (x.1 ∈ seen)); [apply IH|].
  rewrite fmap_cons. constructor; [|apply IH].
  rewrite first_by_key_keys. solve_set.
Qed.

Lemma first_by_key_length l : ∀ seen,
  (length (first_by_key seen l) ≤ length l)%nat.
Proof.
  induction l as [|x l IH]; intros seen; simpl; [done|].
  destruct (decide (x.1 ∈ seen)); simpl.
  - specialize (IH seen). lia.
  - specialize (IH ({[x.1]} ∪ seen)). lia.
Qed.

Lemma elem_of_sorted {A} (f : A → str) x l : x ∈ sorted f l ↔ x ∈ l.
Proof. by rewrite sorted_perm. Qed.

Lemma truthy_Some name n : truthy name = Some n → name = Some n ∧ n ≠ [].
Proof. destruct name as [[|c s]|]; simpl; [done| |done]. by intros [= <-]. Qed.

Lemma truthy_nonempty n : n ≠ [] → truthy (Some n) = Some n.
Proof. by destruct n. Qed.

Lemma skill_entry_Some fs path k c :
  skill_entry fs path = Some (k, c) ↔
  ∃ name, truthy (_parse_skill_md fs path).1 = Some name
          ∧ k = KName name
          ∧ c = skill_command name (_parse_skill_md fs path).2.
Proof.
  unfold skill_entry. destruct (_parse_skill_md fs path) as [name desc]; simpl.
  destruct (truthy name) as [n|]; simpl.
  - split; [intros [= <- <-]; eauto|]. by intros (? & [= <-] & -> & ->).
  - split; [done|]. by intros (? & ? & _).
Qed.

Lemma plugin_entry_Some fs path k c :
  plugin_entry fs path = Some (k, c) ↔
  ∃ plugin_name name,
    plugin_name_of path = Some plugin_name
    ∧ truthy (_parse_skill_md fs path).1 = Some name
    ∧ k = KPlugin plugin_name name
    ∧ c = plugin_command plugin_name name (_parse_skill_md fs path).2.
Proof.
  unfold plugin_entry. destruct (plugin_name_of path) as [p|].
  - destruct (_parse_skill_md fs path) as [name desc]; simpl.
    destruct (truthy name) as [n|]; simpl.
    + split; [intros [= <- <-]; eauto 10|].
      by intros (? & ? & [= <-] & [= <-] & -> & ->).
    + split; [done|]. by intros (? & ? & _ & ? & _).
  - split; [done|]. by intros (? & ? & ? & _).
Qed.

(** Every entry of the scan carries the command string of its key. *)
Lemma scan_entries_command fs k c :
  (k, c) ∈ scan_entries fs → command c = command_of_key k.
Proof.
  unfold scan_entries. rewrite elem_of_app, !list_elem_of_omap.
  intros [(path & _ & H)|(path & _ & H)].
  - apply skill_entry_Some in H as (name & _ & -> & ->). done.
  - apply plugin_entry_Some in H as (p & name & _ & _ & -> & ->). done.
Qed.

Lemma collect_elem fs c :
  c ∈ _collect_skill_commands fs ↔
  ∃ k, (k, c) ∈ first_by_key ∅ (scan_entries fs).
Proof.
  unfold _collect_skill_commands. rewrite elem_of_sorted, discover_first.
  rewrite list_elem_of_fmap. split.
  - intros ([k c'] & -> & H). by exists k.
  - intros [k H]. by exists (k, c).
Qed.

(** ** Where a discovered entry comes from *)

(** Every discovered entry takes arguments, has a command of at least two
    characters that starts with "/", and stands for a descriptor file of
    the scan: a user-level file with this name and description, or a plugin
    file with this plugin identity, name and description. *)
Theorem discovered_entry_origin fs c :
  c ∈ _collect_skill_commands fs →
  takes_args c = true ∧
  (∃ rest, command c = 47 :: rest ∧ rest ≠ []) ∧
  ((∃ path name,
      path ∈ skills_glob fs
      ∧ truthy (_parse_skill_md fs path).1 = Some name
      ∧ c = mkCommand (str_of "/" ++ name) (_parse_skill_md fs path).2 true)
   ∨ (∃ path plugin_name name,
        path ∈ plugins_glob fs
        ∧ plugin_name_of path = Some plugin_name
        ∧ truthy (_parse_skill_md fs path).1 = Some name
        ∧ c = plugin_command plugin_name name (_parse_skill_md fs path).2)).
Proof.
  rewrite collect_elem. intros [k [H _]%first_by_key_elem].
  unfold scan_entries in H. rewrite elem_of_app, !list_elem_of_omap in H.
  destruct H as [(path & Hin & H)|(path & Hin & H)].
  - apply skill_entry_Some in H as (name & Hname & -> & ->).
    destruct (truthy_Some _ _ Hname) as [_ Hne].
    split_and!; [done|by exists name|]. left. by exists path, name.
  - apply plugin_entry_Some in H as (p & name & Hp & Hname & -> & ->).
    destruct (truthy_Some _ _ Hname) as [_ Hne].
    split_and!; [done| |right; by exists path, p, name].
    unfold plugin_command. simpl. case_decide.
    + eexists. split; [done|]. by destruct p.
    + by exists name.
Qed.

(** On the scan with two [deploy] descriptors: the entries of the
    discovered block come from the first user-level file and the first
    plugin file. *)
Lemma discovered_entry_origin_witness :
  _collect_skill_commands fs_twice
  = [ mkCommand (str_of "/deploy") (str_of "First") true;
      mkCommand (str_of "/toolkit:build") (str_of "Old build") true ] ∧
  ∃ rest, command (mkCommand (str_of "/deploy") (str_of "First") true)
          = 47 :: rest ∧ rest ≠ [].
Proof.
  split; [vm_compute; reflexivity|].
  apply (discovered_entry_origin fs_twice).
  apply (bool_decide_unpack _). vm_compute. exact I.
Defined.

(** ** The first descriptor of a key wins *)

(** A user-level descriptor with a non-empty name, no descriptor before it
    in the scan having that name, is in the catalog with its own
    description; later descriptors of that name do not replace it. *)
Theorem user_skill_first_wins fs before path later name desc :
  skills_glob fs = before ++ path :: later →
  _parse_skill_md fs path = (Some name, desc) →
  name ≠ [] →
  (∀ q, q ∈ before → (_parse_skill_md fs q).1 ≠ Some name) →
  mkCommand (str_of "/" ++ name) desc true ∈ get_commands fs.
Proof.
  intros Hglob Hparse Hne Hbefore.
  unfold get_commands. apply elem_of_app. right.
  apply collect_elem. exists (KName name).
  unfold scan_entries. rewrite Hglob, omap_app. simpl.
  assert (skill_entry fs path
          = Some (KName name, skill_command name desc)) as ->.
  { unfold skill_entry. rewrite Hparse, truthy_nonempty by done. done. }
  rewrite <- app_assoc. simpl.
  apply first_by_key_first; [set_solver|]. simpl.
  intros ([k c] & Hk & Hin)%list_elem_of_fmap. simpl in Hk. subst k.
  apply list_elem_of_omap in Hin as (q & Hq & Hin).
  apply skill_entry_Some in Hin as (n & Hn & [= <-] & _).
  apply truthy_Some in Hn as [Hn _]. by apply (Hbefore q).
Qed.

(** The first of two [deploy] descriptors gives the description. *)
Lemma user_skill_first_wins_witness :
  mkCommand (str_of "/deploy") (str_of "First") true ∈ get_commands fs_twice.
Proof.
  apply (user_skill_first_wins fs_twice []
           (str_of "/home/u/.claude/skills/a/SKILL.md")
           [str_of "/home/u/.claude/skills/b/SKILL.md"]
           (str_of "deploy") (str_of "First")).
  - reflexivity.
  - vm_compute. reflexivity.
  - discriminate.
  - intros q Hq. inversion Hq.
Defined.

(** A plugin descriptor with a plugin identity and a non-empty name, no
    plugin descriptor before it having both, is in the catalog with its
    own description, whatever the user-level skills are called. *)
Theorem plugin_skill_first_wins fs before path later plugin_name name desc :
  plugins_glob fs = before ++ path :: later →
  plugin_name_of path = Some plugin_name →
  _parse_skill_md fs path = (Some name, desc) →
  name ≠ [] →
  (∀ q, q ∈ before →
        ¬ (plugin_name_of q = Some plugin_name
           ∧ (_parse_skill_md fs q).1 = Some name)) →
  plugin_command plugin_name name desc ∈ get_commands fs.
Proof.
  intros Hglob Hp Hparse Hne Hbefore.
  unfold get_commands. apply elem_of_app. right.
  apply collect_elem. exists (KPlugin plugin_name name).
  unfold scan_entries. rewrite Hglob, omap_app. simpl.
  assert (plugin_entry fs path
          = Some (KPlugin plugin_name name,
                  plugin_command plugin_name name desc)) as ->.
  { unfold plugin_entry. rewrite Hp, Hparse, truthy_nonempty by done. done. }
  rewrite app_assoc.
  apply first_by_key_first; [set_solver|]. simpl.
  rewrite fmap_app, elem_of_app.
  intros [([k c] & Hk & Hin)%list_elem_of_fmap
         |([k c] & Hk & Hin)%list_elem_of_fmap]; simpl in Hk; subst k;
    apply list_elem_of_omap in Hin as (q & Hq & Hin).
  - by apply skill_entry_Some in Hin as (n & _ & ? & _).
  - apply plugin_entry_Some in Hin as (p & n & Hpq & Hn & [= <- <-] & _).
    apply truthy_Some in Hn as [Hn _]. by apply (Hbefore q).
Qed.

(** The first listed version of the plugin gives the description. *)
Lemma plugin_skill_first_wins_witness :
  mkCommand (str_of "/toolkit:build") (str_of "Old build") true
  ∈ get_commands fs_twice.
Proof.
  apply (plugin_skill_first_wins fs_twice []
           (str_of "/home/u/.claude/plugins/cache/market1/toolkit/1.0.0/SKILL.md")
           [str_of "/home/u/.claude/plugins/cache/market1/toolkit/2.0.0/SKILL.md"]
           (str_of "toolkit") (str_of "build") (str_of "Old build")).
  - reflexivity.
  - vm_compute. reflexivity.
  - vm_compute. reflexivity.
  - discriminate.
  - intros q Hq. inversion Hq.
Defined.

(** ** Size of the catalog *)

Lemma omap_length_le {A B} (f : A → option B) (l : list A) :
  (length (omap f l) ≤ length l)%nat.
Proof.
  induction l as [|x l IH]; csimpl; [done|]. destruct (f x); simpl; lia.
Qed.

Lemma omap_ext_all {A B} (f g : A → option B) (l : list A) :
  (∀ x, f x = g x) → omap f l = omap g l.
Proof.
  intros H. induction l as [|x l IH]; csimpl; [done|]. by rewrite H, IH.
Qed.

(** The catalog has the 23 built-ins and at most one more entry for every
    descriptor file of the scan. *)
Theorem catalog_length_bounds fs :
  (23 ≤ length (get_commands fs)
   ≤ 23 + length (skills_glob fs) + length (plugins_glob fs))%nat.
Proof.
  unfold get_commands, _collect_skill_commands.
  rewrite length_app, (Permutation_length (sorted_perm command _)).
  rewrite discover_first, length_fmap.
  pose proof (first_by_key_length (scan_entries fs) ∅) as H.
  assert (length (scan_entries fs)
          = length (omap (skill_entry fs) (skills_glob fs))
            + length (omap (plugin_entry fs) (plugins_glob fs)))%nat as Hlen
    by apply length_app.
  pose proof (omap_length_le (skill_entry fs) (skills_glob fs)).
  pose proof (omap_length_le (plugin_entry fs) (plugins_glob fs)).
  change (length BUILTIN_COMMANDS) with 23%nat. lia.
Qed.

(** ** The command strings do not depend on the scan order *)

Lemma parse_read_text fs fs' path :
  (∀ p, read_text fs' p = read_text fs p) →
  _parse_skill_md fs' path = _parse_skill_md fs path.
Proof. intros H. unfold _parse_skill_md. by rewrite H. Qed.

Lemma scan_entries_perm fs fs' :
  skills_glob fs' ≡ₚ skills_glob fs →
  plugins_glob fs' ≡ₚ plugins_glob fs →
  (∀ p, read_text fs' p = read_text fs p) →
  scan_entries fs' ≡ₚ scan_entries fs.
Proof.
  intros Hs Hp Hr. unfold scan_entries.
  assert (∀ l, omap (skill_entry fs') l = omap (skill_entry fs) l) as ->.
  { intros l. apply omap_ext_all. intros p.
    unfold skill_entry. by rewrite (parse_read_text fs fs'). }
  assert (∀ l, omap (plugin_entry fs') l = omap (plugin_entry fs) l) as ->.
  { intros l. apply omap_ext_all. intros p.
    unfold plugin_entry. by rewrite (parse_read_text fs fs'). }
  by rewrite Hs, Hp.
Qed.

Lemma first_by_key_keys_perm l l' :
  l ≡ₚ l' →
  fst <$> first_by_key ∅ l ≡ₚ fst <$> first_by_key ∅ l'.
Proof.
  intros H. apply NoDup_Permutation; [apply first_by_key_NoDup..|].
  intros k. rewrite !first_by_key_keys. by rewrite H.
Qed.

Lemma first_by_key_commands fs :
  command <$> (snd <$> first_by_key ∅ (scan_entries fs))
  = command_of_key <$> (fst <$> first_by_key ∅ (scan_entries fs)).
Proof.
  rewrite <- !list_fmap_compose. apply list_fmap_ext.
  intros i [k c] Hi. simpl. apply (scan_entries_command fs).
  by eapply first_by_key_elem, list_elem_of_lookup_2.
Qed.

Lemma sorted_id_perm (l l' : list str) : l ≡ₚ l' → sorted id l = sorted id l'.
Proof.
  intros H.
  apply (StronglySorted_unique_strong
           (λ a b : str, str_le (id a) (id b) = true)).
  - intros a b _ _. apply str_le_antisym.
  - apply sorted_strongly.
  - apply sorted_strongly.
  - by rewrite !sorted_perm.
Qed.

(** Two scans with the same files and the same texts, listed in any two
    orders, give the same sequence of command strings. *)
Theorem commands_scan_order fs fs' :
  skills_glob fs' ≡ₚ skills_glob fs →
  plugins_glob fs' ≡ₚ plugins_glob fs →
  (∀ p, read_text fs' p = read_text fs p) →
  command <$> get_commands fs' = command <$> get_commands fs.
Proof.
  intros Hs Hp Hr. unfold get_commands. rewrite !fmap_app. f_equal.
  unfold _collect_skill_commands.
  change (@command) with (id ∘ command).
  rewrite !sorted_fmap. apply sorted_id_perm.
  rewrite !discover_first, !first_by_key_commands.
  apply fmap_Permutation, first_by_key_keys_perm.
  by apply scan_entries_perm.
Qed.

(** On the scan with two [deploy] descriptors and two versions of a
    plugin, listed forwards and backwards. *)
Lemma commands_scan_order_witness :
  command <$> get_commands fs_twice_rev = command <$> get_commands fs_twice.
Proof.
  apply (commands_scan_order fs_twice fs_twice_rev).
  - apply reverse_Permutation.
  - apply reverse_Permutation.
  - reflexivity.
Defined.

(** ** The mirror loop as one pass over the captures *)

Lemma captures_S TMUX w n :
  captures TMUX w (S n)
  = oracle w (length (calls w)) (capture_argv TMUX)
    :: captures TMUX (after w [capture_argv TMUX]) n.
Proof.
  unfold captures. simpl. rewrite Nat.add_0_r. f_equal.
  rewrite <- fmap_S_seq, <- list_fmap_compose. apply list_fmap_ext.
  intros i j _. simpl. rewrite length_app. simpl. f_equal. lia.
Qed.

Lemma generator_changes TMUX json_dumps n : ∀ prev w,
  event_generator_from TMUX json_dumps n prev w
  = (inr (sse_event json_dumps <$> changes prev (captures TMUX w n)),
     after w (replicate n (capture_argv TMUX))).
Proof.
  induction n as [|n IH]; intros prev w.
  - simpl. unfold after. simpl. rewrite app_nil_r. by destruct w.
  - rewrite captures_S.
    destruct (oracle w (length (calls w)) (capture_argv TMUX)) as [p|e] eqn:E.
    + pose proof (cycle_completed TMUX json_dumps prev w p E) as Hc.
      simpl changes.
      destruct (decide (Some (stdout p) ≠ prev));
        rewrite (generator_step _ _ _ _ _ _ _ _ Hc), IH, after_after; done.
    + pose proof (cycle_raised TMUX json_dumps prev w e E) as Hc.
      rewrite (generator_step _ _ _ _ _ _ _ _ Hc). simpl.
      by rewrite IH, after_after.
Qed.

Lemma changes_no_repeat os : ∀ prev, no_repeat prev (changes prev os).
Proof.
  induction os as [|[p|e] os IH]; intros prev; simpl; [done| |apply IH].
  destruct (decide (Some (stdout p) ≠ prev)); simpl; [|apply IH].
  split; [done|apply IH].
Qed.

Lemma last_changes os : ∀ prev,
  match last (changes prev os) with Some c => Some c | None => prev end
  = match last (stdouts os) with Some c => Some c | None => prev end.
Proof.
  induction os as [|[p|e] os IH]; intros prev; simpl; [done| |apply IH].
  unfold stdouts. csimpl. fold (stdouts os). rewrite last_cons.
  destruct (decide (Some (stdout p) ≠ prev)) as [Hne|Heq].
  - rewrite last_cons. specialize (IH (Some (stdout p))).
    destruct (last (changes (Some (stdout p)) os)), (last (stdouts os));
      simpl in *; congruence.
  - apply dec_stable in Heq. specialize (IH prev).
    destruct (last (changes prev os)), (last (stdouts os));
      simpl in *; congruence.
Qed.

Lemma changes_nil os : ∀ prev,
  changes prev os = [] ↔ ∀ t, t ∈ stdouts os → Some t = prev.
Proof.
  induction os as [|[p|e] os IH]; intros prev; simpl.
  - split; [|done]. by intros _ t ?%elem_of_nil.
  - unfold stdouts. csimpl. fold (stdouts os).
    destruct (decide (Some (stdout p) ≠ prev)) as [Hne|Heq].
    + split; [done|]. intros H. destruct Hne. apply H. by left.
    + apply dec_stable in Heq. rewrite IH. split.
      * intros H t [->|Ht]%elem_of_cons; [done|by apply H].
      * intros H t Ht. apply H. by right.
  - apply IH.
Qed.

Lemma changes_length os prev :
  (length (changes prev os) ≤ length (stdouts os) ≤ length os)%nat.
Proof.
  revert prev. induction os as [|[p|e] os IH]; intros prev; simpl; [lia| |].
  - unfold stdouts. csimpl. fold (stdouts os).
    destruct (decide (Some (stdout p) ≠ prev)); simpl.
    + specialize (IH (Some (stdout p))). lia.
    + specialize (IH prev). lia.
  - unfold stdouts. csimpl. fold (stdouts os). specialize (IH prev). lia.
Qed.

(** ** What a subscriber is sent *)

(** [n] turns of the loop run the capture command [n] times and nothing
    else, do not raise, and yield at most one event for every capture that
    completed. *)
Theorem mirror_calls TMUX json_dumps n prev w :
  ∃ events,
    event_generator_from TMUX json_dumps n prev w
    = (inr events, after w (replicate n (capture_argv TMUX)))
    ∧ (length events ≤ length (stdouts (captures TMUX w n)) ≤ n)%nat.
Proof.
  eexists. split; [apply generator_changes|].
  rewrite length_fmap.
  pose proof (changes_length (captures TMUX w n) prev) as H.
  assert (length (captures TMUX w n) = n) as Hn
    by (unfold captures; by rewrite length_fmap, length_seq).
  lia.
Qed.

(** The texts sent to a subscriber never repeat back to back: each one
    differs from the one sent before it, the first from the baseline. *)
Theorem mirror_no_repeat TMUX json_dumps n prev w :
  ∃ texts w',
    event_generator_from TMUX json_dumps n prev w
    = (inr (sse_event json_dumps <$> texts), w')
    ∧ no_repeat prev texts.
Proof.
  eexists _, _. split; [apply generator_changes|apply changes_no_repeat].
Qed.

(** At any time the last text sent to a new subscriber is the text of the
    latest capture that completed; nothing was sent when none did. *)
Theorem mirror_latest TMUX json_dumps n w :
  ∃ texts w',
    event_generator TMUX json_dumps n w
    = (inr (sse_event json_dumps <$> texts), w')
    ∧ last texts = last (stdouts (captures TMUX w n)).
Proof.
  eexists _, _. split; [apply generator_changes|].
  pose proof (last_changes (captures TMUX w n) None) as H.
  destruct (last (changes None (captures TMUX w n))),
    (last (stdouts (captures TMUX w n))); congruence.
Qed.

(** A subscriber is sent nothing during [n] turns exactly when every
    capture that completed in them equals its baseline; a new subscriber,
    exactly when no capture completed. *)
Theorem mirror_quiet TMUX json_dumps n prev w :
  ((event_generator_from TMUX json_dumps n prev w).1 = inr [] ↔
   ∀ t, t ∈ stdouts (captures TMUX w n) → Some t = prev) ∧
  ((event_generator TMUX json_dumps n w).1 = inr [] ↔
   stdouts (captures TMUX w n) = []).
Proof.
  unfold event_generator. rewrite !generator_changes. simpl. split.
  - rewrite <- changes_nil. split.
    + intros [= H]. by apply fmap_nil_inv in H.
    + by intros ->.
  - split.
    + intros [= H]. apply fmap_nil_inv in H.
      pose proof (proj1 (changes_nil _ None) H) as Hall.
      destruct (stdouts (captures TMUX w n)) as [|t l]; [done|].
      discriminate (Hall t). by left.
    + intros H. assert (changes None (captures TMUX w n) = []) as ->; [|done].
      apply changes_nil. rewrite H. intros t Ht. by apply elem_of_nil in Ht.
Qed.

Lemma changes_squash os : ∀ prev, changes prev os = squash prev (stdouts os).
Proof.
  induction os as [|[p|e] os IH]; intros prev; simpl; [done| |apply IH].
  unfold stdouts. csimpl. fold (stdouts os).
  destruct (decide (Some (stdout p) ≠ prev)); by rewrite IH.
Qed.

(** Failed captures leave no trace in what a subscriber is sent: two runs
    of the loop from the same baseline whose completed captures show the
    same texts in the same order yield the same events, however many
    captures failed in between. *)
Theorem mirror_failures_invisible TMUX json_dumps n m prev w w' :
  stdouts (captures TMUX w n) = stdouts (captures TMUX w' m) →
  (event_generator_from TMUX json_dumps n prev w).1
  = (event_generator_from TMUX json_dumps m prev w').1.
Proof.
  intros H. rewrite !generator_changes. simpl.
  by rewrite !changes_squash, H.
Qed.

(** Three turns that start with a timed-out capture against the two
    turns after it. *)
Lemma mirror_failures_invisible_witness :
  (event_generator_from TMUX_default json_dumps_plain 3 None w_panes).1
  = (event_generator_from TMUX_default json_dumps_plain 2 None
       (after w_panes [capture_argv TMUX_default])).1.
Proof.
  apply (mirror_failures_invisible TMUX_default json_dumps_plain 3 2 None
           w_panes (after w_panes [capture_argv TMUX_default])).
  vm_compute. reflexivity.
Defined.

(** ** Stripping *)

Lemma rev_reverse {A} (l : list A) : rev l = reverse l.
Proof. unfold reverse. apply rev_alt. Qed.

Lemma lstrip_split p s :
  ∃ a, s = a ++ lstrip p s ∧ Forall (λ c, p c = true) a.
Proof.
  induction s as [|c s (a & IH & Ha)]; simpl; [by exists []|].
  destruct (p c) eqn:E; [|by exists []].
  exists (c :: a). split; [simpl; by f_equal|by constructor].
Qed.

Lemma lstrip_head p s c : head (lstrip p s) = Some c → p c = false.
Proof.
  induction s as [|x s IH]; simpl; [done|].
  destruct (p x) eqn:E; [done|]. by intros [= <-].
Qed.

Lemma lstrip_id p s : (∀ c, head s = Some c → p c = false) → lstrip p s = s.
Proof. destruct s as [|c s]; simpl; [done|]. intros H. by rewrite H. Qed.

(** [strip_by p] removes a run of [p]-characters at either end and leaves
    a text that neither starts nor ends with one. *)
Lemma strip_by_split p s :
  ∃ a b, s = a ++ strip_by p s ++ b
         ∧ Forall (λ c, p c = true) a ∧ Forall (λ c, p c = true) b
         ∧ (∀ c, head (strip_by p s) = Some c → p c = false)
         ∧ (∀ c, last (strip_by p s) = Some c → p c = false).
Proof.
  unfold strip_by, rstrip.
  destruct (lstrip_split p s) as (a & Hs & Ha).
  pose proof (lstrip_head p s) as Hhead.
  set (t := lstrip p s) in *.
  destruct (lstrip_split p (rev t)) as (b & Ht & Hb).
  pose proof (lstrip_head p (rev t)) as Hlast.
  set (u := lstrip p (rev t)) in *.
  assert (t = rev u ++ rev b) as Htu.
  { rewrite <- rev_app_distr, <- Ht. by rewrite rev_involutive. }
  exists a, (rev b). split_and!.
  - by rewrite <- Htu.
  - done.
  - rewrite rev_reverse. by apply Forall_reverse.
  - intros c Hc. apply Hhead. rewrite Htu.
    destruct (rev u); [done|]. done.
  - intros c Hc. apply Hlast. by rewrite rev_reverse, last_reverse in Hc.
Qed.

Lemma strip_by_id p s :
  (∀ c, head s = Some c → p c = false) →
  (∀ c, last s = Some c → p c = false) →
  strip_by p s = s.
Proof.
  intros Hh Hl. unfold strip_by, rstrip. rewrite (lstrip_id p s) by done.
  rewrite lstrip_id; [apply rev_involutive|].
  intros c Hc. apply Hl. by rewrite rev_reverse, head_reverse in Hc.
Qed.

Lemma strip_by_Forall (P : N → Prop) p s : Forall P s → Forall P (strip_by p s).
Proof.
  intros H. destruct (strip_by_split p s) as (a & b & Hs & _).
  rewrite Hs in H. by apply Forall_app in H as [_ [H _]%Forall_app].
Qed.

(** ** The address of the server *)

(** [get_tailscale_ip] runs [tailscale ip -4] once. When the call
    completes, whatever its exit status, the result is its output without
    the white space around it: the output is white space, the result,
    white space, and the result neither starts nor ends with white space.
    When the call raises, so does [get_tailscale_ip]. *)
Theorem tailscale_ip_stripped TAILSCALE w :
  let argv := [TAILSCALE; str_of "ip"; str_of "-4"] in
  (∀ p, oracle w (length (calls w)) argv = Completed p →
     ∃ ip a b,
       get_tailscale_ip TAILSCALE w = (inr ip, after w [argv])
       ∧ stdout p = a ++ ip ++ b
       ∧ Forall (λ c, is_space c = true) a
       ∧ Forall (λ c, is_space c = true) b
       ∧ (∀ c, head ip = Some c → is_space c = false)
       ∧ (∀ c, last ip = Some c → is_space c = false)) ∧
  (∀ e, oracle w (length (calls w)) argv = Raised e →
     get_tailscale_ip TAILSCALE w = (inl e, after w [argv])).
Proof.
  cbv zeta. split.
  - intros p H.
    destruct (strip_by_split is_space (stdout p)) as (a & b & Hs & Ha & Hb & Hh & Hl).
    exists (strip (stdout p)), a, b. split_and!; try done.
    unfold get_tailscale_ip, mbind, M_bind.
    by rewrite (run_completed _ _ _ H).
  - intros e H. unfold get_tailscale_ip, mbind, M_bind.
    by rewrite (run_raised _ _ _ H).
Qed.

(** On an output of the address and a line end. *)
Lemma tailscale_ip_stripped_witness :
  ∃ ip a b,
    get_tailscale_ip (str_of "/usr/local/bin/tailscale") w_tailscale
    = (inr ip, after w_tailscale
                 [[str_of "/usr/local/bin/tailscale"; str_of "ip"; str_of "-4"]])
    ∧ str_of "100.64.0.7" ++ [NL] = a ++ ip ++ b
    ∧ Forall (λ c, is_space c = true) a
    ∧ Forall (λ c, is_space c = true) b
    ∧ (∀ c, head ip = Some c → is_space c = false)
    ∧ (∀ c, last ip = Some c → is_space c = false).
Proof.
  apply (proj1 (tailscale_ip_stripped (str_of "/usr/local/bin/tailscale")
                  w_tailscale)
           (mkCompleted 0 (str_of "100.64.0.7" ++ [NL]))).
  reflexivity.
Defined.

(** ** Repetitions *)

(** A repetition consumes a run of characters of its class. *)
Lemma rep_class_sound q least cl k s : ∀ n prev acc g,
  rep_class q least cl k n prev s acc = Some g →
  ∃ run s' prev',
    s = run ++ s' ∧ Forall (λ c, in_class cl c = true) run
    ∧ k prev' s' (rev acc ++ run) = Some g.
Proof.
  assert (∀ n prev s acc g,
            (if (least <=? n)%nat then k prev s (rev acc) else None) = Some g →
            ∃ run s' prev',
              s = run ++ s' ∧ Forall (λ c, in_class cl c = true) run
              ∧ k prev' s' (rev acc ++ run) = Some g) as Hstop.
  { intros n prev t acc g H. destruct (least <=? n)%nat; [|done].
    exists [], t, prev. rewrite app_nil_r. by split_and!. }
  induction s as [|c s IH]; intros n prev acc g H.
  - simpl in H. apply (Hstop n prev).
    destruct q; [done|].
    by destruct (if (least <=? n)%nat then k prev [] (rev acc) else None).
  - cbn [rep_class] in H.
    assert ((if in_class cl c
             then rep_class q least cl k (S n) (Some c) s (c :: acc)
             else None) = Some g →
            ∃ run s' prev',
              c :: s = run ++ s' ∧ Forall (λ c, in_class cl c = true) run
              ∧ k prev' s' (rev acc ++ run) = Some g) as Hmore.
    { destruct (in_class cl c) eqn:E; [|done]. intros Hr.
      apply IH in Hr as (run & s' & prev' & -> & Hrun & Hk).
      exists (c :: run), s', prev'. split_and!; [done|by constructor|].
      simpl in Hk. by rewrite <- app_assoc in Hk. }
    destruct q.
    + destruct (if in_class cl c then _ else None) as [r|] eqn:E.
      * apply Hmore. by rewrite <- H.
      * by apply (Hstop n prev).
    + destruct (if (least <=? n)%nat then _ else None) as [r|] eqn:E.
      * apply (Hstop n prev). by rewrite E, <- H.
      * by apply Hmore.
Qed.

(** A greedy repetition takes the whole run of its class when the rest of
    the pattern matches after it. *)
Lemma rep_greedy_run least cl k run t : ∀ n prev acc g,
  Forall (λ c, in_class cl c = true) run →
  (∀ c, head t = Some c → in_class cl c = false) →
  (least ≤ n + length run)%nat →
  (∀ p, k p t (rev acc ++ run) = Some g) →
  rep_class Greedy least cl k n prev (run ++ t) acc = Some g.
Proof.
  induction run as [|c run IH]; intros n prev acc g Hrun Ht Hleast Hk.
  - simpl in *. rewrite app_nil_r in Hk.
    assert ((least <=? n)%nat = true) as Hle by (apply Nat.leb_le; lia).
    destruct t as [|c t]; simpl; [by rewrite Hle, Hk|].
    rewrite (Ht c) by done. by rewrite Hle, Hk.
  - apply Forall_cons in Hrun as [Hc Hrun].
    cbn [app rep_class]. rewrite Hc.
    rewrite (IH (S n) (Some c) (c :: acc) g); [done|done|done|simpl in *; lia|].
    intros p. simpl. rewrite <- app_assoc. apply Hk.
Qed.

(** A lazy [.*?] under DOTALL passes over a stretch where the rest of the
    pattern cannot match. *)
Lemma rep_lazy_skip k A : ∀ n prev acc t,
  Forall (λ c, ∀ p u g, k p (c :: u) g = None) A →
  ∃ n' prev',
    rep_class Lazy 0 Any k n prev (A ++ t) acc
    = rep_class Lazy 0 Any k n' prev' t (rev A ++ acc).
Proof.
  induction A as [|c A IH]; intros n prev acc t HA; [by exists n, prev|].
  apply Forall_cons in HA as [Hc HA].
  cbn [app rep_class in_class Nat.leb]. rewrite Hc.
  destruct (IH (S n) (Some c) (c :: acc) t HA) as (n' & prev' & ->).
  exists n', prev'. simpl. by rewrite <- app_assoc.
Qed.

(** Under MULTILINE a pattern that starts with [^] is not tried inside a
    line. *)
Lemma search_after_newline r A : ∀ prev t,
  NL ∉ A → at_bol prev = false →
  search_from (Bol :: r) prev (A ++ NL :: t)
  = search_from (Bol :: r) (Some NL) t.
Proof.
  induction A as [|c A IH]; intros prev t HA Hprev.
  - simpl. by rewrite Hprev.
  - apply not_elem_of_cons in HA as [Hc HA].
    cbn [app search_from exec]. rewrite Hprev. apply IH; [done|].
    simpl. by apply N.eqb_neq.
Qed.

Lemma search_from_hit r prev s g :
  exec r prev s [] = Some g → search_from r prev s = Some g.
Proof. intros H. destruct s; simpl; by rewrite H. Qed.

(** ** The field patterns *)

Lemma eat_exact l s : ∀ prev, ∃ prev', eat l prev (l ++ s) = Some (prev', s).
Proof.
  induction l as [|x l IH]; intros prev; simpl; [by eexists|].
  rewrite N.eqb_refl. apply IH.
Qed.

Lemma in_class_Dot_Forall s : NL ∉ s ↔ Forall (λ c, in_class Dot c = true) s.
Proof.
  rewrite Forall_forall. unfold in_class. split.
  - intros H c Hc. apply negb_true_iff, N.eqb_neq. by intros ->.
  - intros H Hin. apply H in Hin. by rewrite N.eqb_refl in Hin.
Qed.

(** The group of a field pattern lies within one line. *)
Lemma field_exec_no_newline key prev s g :
  exec (field_re key) prev s [] = Some g → NL ∉ g.
Proof.
  unfold field_re. cbn [exec].
  destruct (at_bol prev); [|done].
  destruct (eat _ prev s) as [[prev1 s1]|]; [|done].
  intros H. apply rep_class_sound in H as (_ & s2 & prev2 & _ & _ & H).
  cbn [exec] in H.
  apply rep_class_sound in H as (run & s3 & prev3 & _ & Hrun & H).
  cbn [exec] in H. destruct (at_eol s3); [|done].
  injection H as <-. simpl. by apply in_class_Dot_Forall.
Qed.

Lemma field_search_no_newline key s : ∀ prev g,
  search_from (field_re key) prev s = Some g → NL ∉ g.
Proof.
  induction s as [|c s IH]; intros prev g; cbn [search_from].
  - destruct (exec (field_re key) prev [] []) eqn:E; [|done].
    intros [= <-]. by eapply field_exec_no_newline.
  - destruct (exec (field_re key) prev (c :: s) []) eqn:E.
    + intros [= <-]. by eapply field_exec_no_newline.
    + apply IH.
Qed.

Lemma strip_no_newline s : NL ∉ s → NL ∉ strip_quote (strip s).
Proof.
  intros H. assert (Forall (λ c, c ≠ NL) s) as HF.
  { apply Forall_forall. by intros c Hc ->. }
  apply (strip_by_Forall _ is_space), (strip_by_Forall _ (N.eqb QUOTE)) in HF.
  intros Hin. by apply (proj1 (Forall_forall _ _) HF) in Hin.
Qed.

(** A field line [key: value] at the start of a line gives [value]. *)
Lemma field_exec key value t prev :
  at_bol prev = true → at_eol t = true →
  NL ∉ value → (∃ c, head value = Some c ∧ is_space c = false) →
  exec (field_re key) prev
    ((str_of key ++ str_of ":") ++ 32 :: value ++ t) []
  = Some value.
Proof.
  intros Hbol Heol Hnl (c0 & Hhead & Hc0).
  unfold field_re. cbn [exec]. rewrite Hbol.
  destruct (eat_exact (str_of key ++ str_of ":") (32 :: value ++ t) prev)
    as [prev1 ->].
  apply (rep_greedy_run 0 Space _ [32] (value ++ t)).
  - by repeat constructor.
  - intros c Hc. destruct value as [|v value]; [done|].
    simpl in *. congruence.
  - lia.
  - intros p. cbn [exec].
    apply (rep_greedy_run 1 Dot _ value t).
    + by apply in_class_Dot_Forall.
    + intros c Hc. destruct t as [|x t]; [done|].
      simpl in *. injection Hc as ->. by rewrite Heol.
    + destruct value; [done|simpl; lia].
    + intros p'. cbn [exec]. by rewrite Heol.
Qed.

(** ** Names and descriptions hold no newline *)

(** The name and the description [_parse_skill_md] returns never contain
    the newline character U+000A, so no description in the catalog does.
    (Other characters that end a line elsewhere, such as U+000B or U+2028,
    are not excluded: the patterns stop at U+000A only.) *)
Theorem parsed_text_no_newline fs :
  (∀ path, (NL ∉ default [] (_parse_skill_md fs path).1)
           ∧ (NL ∉ (_parse_skill_md fs path).2)) ∧
  Forall (λ c, NL ∉ description c) (get_commands fs).
Proof.
  assert (∀ path, (NL ∉ default [] (_parse_skill_md fs path).1)
                  ∧ (NL ∉ (_parse_skill_md fs path).2)) as Hparse.
  { intros path. unfold _parse_skill_md.
    destruct (read_text fs path) as [content|]; [|split; apply not_elem_of_nil].
    destruct (re_match FRONTMATTER_RE content) as [fm|];
      [|split; apply not_elem_of_nil].
    simpl. split.
    - destruct (re_search NAME_RE fm) as [g|] eqn:E; [|apply not_elem_of_nil].
      simpl. by eapply strip_no_newline, field_search_no_newline.
    - destruct (re_search DESC_RE fm) as [g|] eqn:E; [|apply not_elem_of_nil].
      simpl. by eapply strip_no_newline, field_search_no_newline. }
  split; [done|].
  unfold get_commands. apply Forall_app. split.
  - apply (bool_decide_unpack _). by vm_compute.
  - apply Forall_forall. intros c Hc.
    apply collect_elem in Hc as [k [Hc _]%first_by_key_elem].
    unfold scan_entries in Hc. rewrite elem_of_app, !list_elem_of_omap in Hc.
    destruct Hc as [(path & _ & H)|(path & _ & H)].
    + apply skill_entry_Some in H as (name & _ & _ & ->). apply Hparse.
    + apply plugin_entry_Some in H as (p & name & _ & _ & _ & ->). apply Hparse.
Qed.

(** ** A plain descriptor *)

Lemma plain_strip s : plain s → strip_quote (strip s) = s.
Proof.
  intros (_ & (c & Hh & Hc) & (d & Hl & Hd)).
  unfold strip, strip_quote.
  rewrite (strip_by_id is_space s).
  - apply strip_by_id; intros x Hx.
    + rewrite Hh in Hx. injection Hx as <-. apply N.eqb_neq.
      intros Heq. by apply Hc.
    + rewrite Hl in Hx. injection Hx as <-. apply N.eqb_neq.
      intros Heq. by apply Hd.
  - intros x Hx. rewrite Hh in Hx. injection Hx as <-. apply Hc.
  - intros x Hx. rewrite Hl in Hx. injection Hx as <-. apply Hd.
Qed.

Lemma plain_field key value t prev :
  plain value → at_bol prev = true → at_eol t = true →
  exec (field_re key) prev
    ((str_of key ++ str_of ":") ++ 32 :: value ++ t) []
  = Some value.
Proof.
  intros (Hnl & (c & Hh & Hc & _) & _) Hbol Heol.
  apply field_exec; eauto.
Qed.

Lemma rev_two_lines (A B : str) :
  rev (rev B ++ NL :: rev A ++ []) = A ++ NL :: B.
Proof.
  rewrite app_nil_r, rev_app_distr, rev_involutive. cbn [rev].
  by rewrite rev_involutive, <- app_assoc.
Qed.

(** The header of a plain descriptor is its two lines. *)
Lemma plain_frontmatter name desc rest :
  NL ∉ name → NL ∉ desc →
  re_match FRONTMATTER_RE (descriptor name desc ++ rest)
  = Some (str_of "name: " ++ name ++ [NL] ++ str_of "description: " ++ desc).
Proof.
  intros Hname Hdesc.
  set (A := str_of "name: " ++ name).
  set (B := str_of "description: " ++ desc).
  set (k := λ (prev' : option N) (s' run : str),
              exec [Lit (NL :: str_of "---")] prev' s'
                (if true then run else [])).
  change (re_match FRONTMATTER_RE (descriptor name desc ++ rest))
    with (match eat (str_of "---" ++ [NL]) None
                  (descriptor name desc ++ rest) with
          | Some (prev', s') => rep_class Lazy 0 Any k 0%nat prev' s' []
          | None => None
          end).
  assert (descriptor name desc ++ rest
          = (str_of "---" ++ [NL])
            ++ A ++ NL :: B ++ (NL :: str_of "---") ++ rest) as ->.
  { unfold descriptor, A, B. by rewrite <- !app_assoc. }
  destruct (eat_exact (str_of "---" ++ [NL])
              (A ++ NL :: B ++ (NL :: str_of "---") ++ rest) None)
    as [prev1 ->].
  assert (∀ c p u g, c ≠ NL → k p (c :: u) g = None) as Hk.
  { intros c p u g Hc. unfold k. cbn [exec eat].
    by rewrite (proj2 (N.eqb_neq NL c)) by done. }
  assert (∀ s, NL ∉ s → Forall (λ c, ∀ p u g, k p (c :: u) g = None) s)
    as Hskip.
  { intros s Hs. apply Forall_forall. intros c Hc p u g. apply Hk.
    by intros ->. }
  assert (NL ∉ A) as HA.
  { unfold A. rewrite elem_of_app. intros [H|H]; [|done].
    revert H. apply (bool_decide_unpack _). by vm_compute. }
  assert (NL ∉ B) as HB.
  { unfold B. rewrite elem_of_app. intros [H|H]; [|done].
    revert H. apply (bool_decide_unpack _). by vm_compute. }
  destruct (rep_lazy_skip k A 0%nat prev1 []
              (NL :: B ++ (NL :: str_of "---") ++ rest) (Hskip A HA))
    as (n1 & p1 & ->).
  cbn [rep_class in_class Nat.leb].
  assert (∀ p g, k p (NL :: B ++ (NL :: str_of "---") ++ rest) g = None)
    as ->.
  { intros p g. unfold k, B. by vm_compute. }
  destruct (rep_lazy_skip k B (S n1) (Some NL) (NL :: rev A ++ [])
              ((NL :: str_of "---") ++ rest) (Hskip B HB))
    as (n2 & p2 & ->).
  assert (∀ p g, k p ((NL :: str_of "---") ++ rest) g = Some g) as Hhit.
  { intros p g. unfold k. cbn [exec].
    by destruct (eat_exact (NL :: str_of "---") rest p) as [p' ->]. }
  destruct ((NL :: str_of "---") ++ rest) as [|c t] eqn:E; [done|].
  cbn [rep_class Nat.leb]. rewrite Hhit. f_equal.
  rewrite rev_two_lines. unfold A. by rewrite <- app_assoc.
Qed.

(** ** Parsing a plain descriptor *)

(** A readable file that starts with a plain descriptor (the delimiter
    line, [name: <name>], [description: <desc>], the delimiter, then any
    text), where name and description are non-empty, on one line and free
    of white space and quotes at both ends, parses to exactly this name and
    this description. *)
Theorem plain_descriptor_parses fs path name desc rest :
  read_text fs path = Some (descriptor name desc ++ rest) →
  plain name → plain desc →
  _parse_skill_md fs path = (Some name, desc).
Proof.
  intros Hread Hname Hdesc. unfold _parse_skill_md. rewrite Hread.
  rewrite plain_frontmatter by (apply Hname || apply Hdesc).
  assert (re_search NAME_RE
            (str_of "name: " ++ name ++ [NL] ++ str_of "description: " ++ desc)
          = Some name) as ->.
  { apply search_from_hit.
    apply (plain_field "name" name
             (NL :: str_of "description: " ++ desc) None); done. }
  assert (re_search DESC_RE
            (str_of "name: " ++ name ++ [NL] ++ str_of "description: " ++ desc)
          = Some desc) as ->.
  { unfold re_search.
    change (str_of "name: " ++ name ++ [NL] ++ str_of "description: " ++ desc)
      with (110 :: (str_of "ame: " ++ name)
                   ++ NL :: str_of "description: " ++ desc).
    cbn [search_from].
    assert (exec DESC_RE None
              (110 :: (str_of "ame: " ++ name)
                      ++ NL :: str_of "description: " ++ desc) [] = None)
      as -> by (by vm_compute).
    unfold DESC_RE, field_re.
    rewrite search_after_newline; [| |done].
    - apply search_from_hit.
      pose proof (plain_field "description" desc [] (Some NL) Hdesc
                    eq_refl eq_refl) as H.
      by rewrite app_nil_r in H.
    - destruct Hname as [Hnl _]. rewrite elem_of_app. intros [H|H]; [|done].
      revert H. apply (bool_decide_unpack _). by vm_compute. }
  simpl. by rewrite !plain_strip.
Qed.

(** On the [deploy] descriptor. *)
Lemma plain_descriptor_parses_witness :
  _parse_skill_md fs_deploy (str_of "/home/u/.claude/skills/deploy/SKILL.md")
  = (Some (str_of "deploy"), str_of "Deploy app").
Proof.
  apply (plain_descriptor_parses fs_deploy _ (str_of "deploy")
           (str_of "Deploy app") []).
  - vm_compute. reflexivity.
  - split_and!.
    + apply (bool_decide_unpack _). vm_compute. exact I.
    + exists 100. vm_compute. split_and!; [reflexivity..|discriminate].
    + exists 121. vm_compute. split_and!; [reflexivity..|discriminate].
  - split_and!.
    + apply (bool_decide_unpack _). vm_compute. exact I.
    + exists 68. vm_compute. split_and!; [reflexivity..|discriminate].
    + exists 112. vm_compute. split_and!; [reflexivity..|discriminate].
Defined.
